(** * Ultrasonic-Raycaster: the serial framer, the trail and the radar frame

    A shallow embedding of [src/main.cpp].

    - [std::string] is a list of bytes ([ascii]); [find], [substr] and
      [erase] are [find], [take] and [drop].
    - [int] is [Z]; the only place where the range of [int] matters is
      [std::stoi], which is modelled with its two exceptions.
    - [std::deque<std::pair<int,int>>] is a list, front first;
      [std::map<int,int>] is a [gmap Z Z].
    - [double] is the binary64 [float] of the kernel; the C library's [cos]
      and [sin] are parameters.
    - [cv::Mat] is the list of drawing calls made on it since it was last
      cleared; a [cv::Scalar] channel is the exact value, in [Q], of the
      double the source computes; a [cv::Point] whose coordinates the
      source computes with [cos]/[sin] is kept symbolic ([PolarPt]) and
      evaluated by [eval_point].
    - [main] has no handler: an exception of [std::stoi] ends the process
      ([Terminated]). *)

From Stdlib Require Import ZArith QArith Ascii String List Lia DecimalString DecimalPos.
From Stdlib Require Import Floats.PrimFloat Floats.SpecFloat Floats.FloatOps.
From Stdlib Require Import Numbers.Cyclic.Int63.Uint63.
From stdpp Require Import base list gmap.

Open Scope Z_scope.

Set Warnings "-inexact-float".

(** * The program *)

(** ** Bytes and [std::string] *)

Abbreviation bytes := (list ascii).

Definition str (s : string) : bytes := list_ascii_of_string s.

(** [s.find(c)]: the first position of [c], [None] for [npos]. *)
Fixpoint find (c : ascii) (s : bytes) : option nat :=
  match s with
  | [] => None
  | b :: s' => if Ascii.eqb b c then Some O else S <$> find c s'
  end.

(** ** [std::stoi] *)

Inductive exn := invalid_argument | out_of_range.

Inductive result (A : Type) :=
| Ok (a : A)
| Throw (e : exn).
Arguments Ok {A} a.
Arguments Throw {A} e.

Definition INT_MAX : Z := 2147483647.
Definition INT_MIN : Z := -2147483648.

Definition isspace (c : ascii) : bool :=
  let n := nat_of_ascii c in
  (n =? 32)%nat || ((9 <=? n)%nat && (n <=? 13)%nat).

Definition isdigit (c : ascii) : bool :=
  let n := nat_of_ascii c in
  (48 <=? n)%nat && (n <=? 57)%nat.

Definition digit_value (c : ascii) : Z := Z.of_nat (nat_of_ascii c) - 48.

Fixpoint skip_space (s : bytes) : bytes :=
  match s with
  | c :: s' => if isspace c then skip_space s' else s
  | [] => []
  end.

(** The value of the longest prefix of digits of [s], on top of [acc]. *)
Fixpoint read_digits (acc : Z) (s : bytes) : Z :=
  match s with
  | c :: s' => if isdigit c then read_digits (10 * acc + digit_value c) s' else acc
  | [] => acc
  end.

(** [std::stoi(str)] (base 10): [strtol] skips white space, takes an
    optional sign and the longest run of digits; no digit at all raises
    [std::invalid_argument], a value outside [int] raises
    [std::out_of_range]. What follows the digits is ignored. *)
Definition stoi (s : bytes) : result Z :=
  let s := skip_space s in
  let '(negative, s) :=
    match s with
    | c :: s' =>
        if Ascii.eqb c "-" then (true, s')
        else if Ascii.eqb c "+" then (false, s')
        else (false, s)
    | [] => (false, s)
    end in
  match s with
  | c :: _ =>
      if isdigit c then
        let magnitude := read_digits 0 s in
        let v := if negative then - magnitude else magnitude in
        if (INT_MIN <=? v) && (v <=? INT_MAX) then Ok v else Throw out_of_range
      else Throw invalid_argument
  | [] => Throw invalid_argument
  end.

(** [std::to_string(int)]. *)
Definition to_string (z : Z) : bytes :=
  list_ascii_of_string (NilZero.string_of_int (Z.to_int z)).

(** ** Doubles *)

(** The conversion of an [int] to [double]: exact for every [int]. *)
Definition double_of_int (z : Z) : float :=
  if z <? 0 then PrimFloat.opp (PrimFloat.of_uint63 (Uint63.of_Z (- z)))
  else PrimFloat.of_uint63 (Uint63.of_Z z).

(** The conversion of a [double] to [int]: the fraction is dropped, towards
    zero. (Not a number, an infinity or a value outside [int] is undefined
    in the source; no statement below reaches them.) *)
Definition int_of_double (f : float) : Z :=
  match Prim2SF f with
  | S754_finite negative m e =>
      let magnitude := if 0 <=? e then Z.pos m * 2 ^ e else Z.pos m / 2 ^ (- e) in
      if negative then - magnitude else magnitude
  | _ => 0
  end.

(** The rational number a finite [double] is, in lowest terms. *)
Definition Q_of_double (f : float) : Q :=
  match Prim2SF f with
  | S754_finite negative m e =>
      let n := if negative then Z.neg m else Z.pos m in
      Qred (if 0 <=? e then inject_Z (n * 2 ^ e) else Qmake n (2 ^ Z.to_pos (- e)))
  | _ => 0%Q
  end.

Definition M_PI : float := 3.141592653589793%float.

(** [angle * (M_PI / 180)] *)
Definition angle_radians (angle : Z) : float :=
  (double_of_int angle * (M_PI / 180))%float.

(** ** The drawing surface *)

(** [cv::Scalar(v0, v1, v2)], channels in B, G, R order. *)
Record Scalar := mkScalar { v0 : Q; v1 : Q; v2 : Q }.

(** [cv::Point]. [PolarPt start angle length] stands for the point
    [(int(start.x + cos(angle * (M_PI / 180)) * length),
      int(start.y - sin(angle * (M_PI / 180)) * length))]
    of [drawLineAtAngle] and [calculate_circle_point]: the sine term is
    subtracted. [ShiftX p dx] is [p] with [dx] added to its abscissa. *)
Inductive Point :=
| Pt (x y : Z)
| PolarPt (start : Point) (angle length : Z)
| ShiftX (p : Point) (dx : Z).

Inductive draw :=
| setTo (color : Scalar)
| line (pt1 pt2 : Point) (color : Scalar)
| circle (center : Point) (radius : Z) (color : Scalar) (thickness : Z)
| rectangle (pt1 pt2 : Point) (color : Scalar) (thickness : Z)
| putText (text : bytes) (org : Point) (fontScale : Q) (color : Scalar).

(** A [cv::Mat] is what was drawn on it, oldest call first. The font face
    of [cv::putText] is [fontFace] everywhere and is left out. *)
Abbreviation Mat := (list draw).

(** Global constants section of the source. *)
Definition width : Z := 240.
Definition height : Z := 140.
Definition circle_center : Point := Pt (width / 2) (height - 20).
Definition green : Scalar := mkScalar 0 180 0.
Definition background : Scalar := mkScalar 30 30 30.
Definition fontScale : Q := 0.5.
Definition angle_display : Z * Z := (5, height - 5).
Definition distance_display : Z * Z := (width / 2 - 20, height - 5).

Definition drawLineAtAngle (frame : Mat) (start : Point) (angle length : Z)
    (color : Scalar) (with_text : bool) : Mat :=
  let frame := frame ++ [line start (PolarPt start angle length) color] in
  let text_end := PolarPt start angle (length + 3) in
  let text_end := if 90 <=? angle then ShiftX text_end (-8) else text_end in
  if with_text
  then frame ++ [putText (to_string angle) text_end fontScale green]
  else frame.

Definition calculate_circle_point (angle length : Z) : Point :=
  PolarPt circle_center angle length.

(** The end point both functions compute from [start]:
    [int end_x = start.x + cos(angle_radians) * length;
     int end_y = start.y - sin(angle_radians) * length;]
    in doubles, converted to [int]. [cos] and [sin] are the C library's. *)
Definition polar_end (cos sin : float -> float) (start : Z * Z) (angle length : Z)
    : Z * Z :=
  (int_of_double (double_of_int (fst start)
                  + cos (angle_radians angle) * double_of_int length)%float,
   int_of_double (double_of_int (snd start)
                  - sin (angle_radians angle) * double_of_int length)%float).

(** The coordinates of a [Point]. *)
Fixpoint eval_point (cos sin : float -> float) (p : Point) : Z * Z :=
  match p with
  | Pt x y => (x, y)
  | PolarPt start angle length => polar_end cos sin (eval_point cos sin start) angle length
  | ShiftX p dx => (fst (eval_point cos sin p) + dx, snd (eval_point cos sin p))
  end.

(** [angle_radians 90], the double next to pi / 2. *)
Definition half_pi : float := 0x1.921fb54442d18p+0%float.

(** What the C library gives at the arguments of 0 and 90 degrees:
    [cos(0) = 1], [sin(0) = 0], [sin(half_pi) = 1] and [cos(half_pi)], which
    is not 0 but about [6.123e-17]. These two functions have these values
    there and are not a number elsewhere; they stand for [cos] and [sin]
    where a statement needs the two angles only. *)
Definition cos_half_pi : float := 0x1.1a62633145c07p-54%float.

Definition cos_at_0_and_90 (x : float) : float :=
  if PrimFloat.eqb x 0 then 1%float
  else if PrimFloat.eqb x half_pi then cos_half_pi else nan.

Definition sin_at_0_and_90 (x : float) : float :=
  if PrimFloat.eqb x 0 then 0%float
  else if PrimFloat.eqb x half_pi then 1%float else nan.

(** What the program writes out: a frame handed to [cv::imshow] (after
    the resize into [larger_frame]), a line on [std::cerr]; [UpdateRadar]
    marks each call [updateRadar(radar, degree, distanceCM)] of [main],
    that is each record the framer hands on. *)
Inductive event :=
| Imshow (frame : Mat)
| Cerr (text : bytes)
| UpdateRadar (degree distanceCM : Z).

(** The globals of the source and the locals of [main] that live across
    iterations. *)
Record session := mkSession {
  data : bytes;
  line_deque : list (Z * Z);
  arduino_measurements : gmap Z Z;
  radar : Mat;
  trace : list event }.

Definition set_data (s : session) (d : bytes) : session :=
  mkSession d (line_deque s) (arduino_measurements s) (radar s) (trace s).

Definition rings : list Z := [1; 2; 3; 4; 5].

(** The frame [drawRadar] builds, whatever [frame] held before. *)
Definition radar_template : Mat :=
  let frame := [setTo background] in
  let frame := frame ++ [circle circle_center 3 green (-1)] in
  let frame :=
    frame ++ map (fun radius => circle circle_center (radius * 20) green 1) rings in
  let frame :=
    fold_left (fun frame angle =>
                 drawLineAtAngle frame circle_center (angle * 30) 104 green true)
              rings frame in
  let frame :=
    frame ++ [line (Pt 0 (height - 21)) (Pt width (height - 21)) green;
              rectangle (Pt 0 (height - 20)) (Pt width height) (mkScalar 15 15 15) (-1);
              putText (str "Degree: ") (Pt (fst angle_display) (snd angle_display)) 0.8 green;
              putText (str "Distance: ") (Pt (fst distance_display) (snd distance_display)) 0.8 green] in
  frame ++ map (fun radius =>
                  putText (to_string (radius * 10))
                          (Pt (width / 2 + radius * 20 - 5) (height - 17)) 0.5 green)
               rings.

Definition drawRadar (s : session) : session :=
  mkSession (data s) (line_deque s) (arduino_measurements s)
            radar_template (trace s ++ [Imshow radar_template]).

(** [line_deque.push_front(m); if (line_deque.size() > 40) line_deque.pop_back();] *)
Definition push_trail (m : Z * Z) (dq : list (Z * Z)) : list (Z * Z) :=
  let dq := m :: dq in
  if (40 <? length dq)%nat then removelast dq else dq.

(** One turn of the loop over [line_deque] in [updateRadar]; it returns the
    frame and the running [color_change]. *)
Definition draw_trail_line (frame : Mat) (color_change : Z) (entry : Z * Z) : Mat * Z :=
  let color_change := color_change + 5 in
  let frame :=
    drawLineAtAngle frame circle_center (fst entry) 100
                    (mkScalar 0 (inject_Z (200 - color_change)) 0) false in
  let frame :=
    if (snd entry <? 50) && (2 <? snd entry)
    then frame ++ [circle (calculate_circle_point (fst entry) (snd entry * 2)) 3
                          (mkScalar 0 8 (Q_of_double (255 - double_of_int color_change * 1.4)%float))
                          (-1)]
    else frame in
  (frame, color_change).

Fixpoint draw_trail (frame : Mat) (color_change : Z) (dq : list (Z * Z)) : Mat :=
  match dq with
  | [] => frame
  | entry :: dq' =>
      let '(frame, color_change) := draw_trail_line frame color_change entry in
      draw_trail frame color_change dq'
  end.

(** The text of the bottom bar. *)
Definition draw_info (frame : Mat) (degree distanceCM : Z) : Mat :=
  let frame :=
    frame ++ [putText (to_string degree)
                      (Pt (fst angle_display + 55) (snd angle_display)) 0.8 green] in
  if distanceCM <? 50
  then frame ++ [putText (to_string distanceCM ++ str " cm")
                         (Pt (fst distance_display + 65) (snd distance_display)) 0.8 green]
  else frame ++ [putText (str "Nothing")
                         (Pt (fst distance_display + 65) (snd distance_display)) 0.8 green].

Definition updateRadar (s : session) (degree distanceCM : Z) : session :=
  let s := drawRadar s in
  let dq := push_trail (degree, distanceCM) (line_deque s) in
  let frame := draw_trail (radar s) 0 dq in
  let frame := draw_info frame degree distanceCM in
  mkSession (data s) dq (arduino_measurements s) frame (trace s ++ [Imshow frame]).

(** ** The read loop of [main] *)

(** [Terminated e s]: [std::stoi] raised [e], nothing catches it, and the
    process ended in the state [s]. *)
Inductive run :=
| Running (s : session)
| Terminated (e : exn) (s : session).

(** [if (distanceCM < 50 && distanceCM > 1 && arduino_measurements.count(degree) == 0)
       arduino_measurements[degree] = distanceCM;] *)
Definition store (table : gmap Z Z) (degree distanceCM : Z) : gmap Z Z :=
  if (distanceCM <? 50) && (1 <? distanceCM) && bool_decide (table !! degree = None)
  then <[degree := distanceCM]> table
  else table.

Definition invalid_format : bytes := str "Invalid message format (breakpoints?): ".

(** What [main] does with a record: [updateRadar], then the table. *)
Definition accept (s : session) (degree distanceCM : Z) : session :=
  let s :=
    mkSession (data s) (line_deque s) (arduino_measurements s) (radar s)
              (trace s ++ [UpdateRadar degree distanceCM]) in
  let s := updateRadar s degree distanceCM in
  mkSession (data s) (line_deque s)
            (store (arduino_measurements s) degree distanceCM)
            (radar s) (trace s).

(** The body of the inner loop once [message] is cut out of [data]. *)
Definition handle_message (s : session) (message : bytes) : run :=
  match find ":" message with
  | Some data_delimiter_pos =>
      match stoi (take data_delimiter_pos message) with
      | Throw e => Terminated e s
      | Ok degree =>
          match stoi (drop (S data_delimiter_pos) message) with
          | Throw e => Terminated e s
          | Ok distanceCM => Running (accept s degree distanceCM)
          end
      end
  | None =>
      Running (mkSession (data s) (line_deque s) (arduino_measurements s) (radar s)
                         (trace s ++ [Cerr (invalid_format ++ message)]))
  end.

(** One test of [data.find("|")] and, when it finds a delimiter, one turn
    of the inner loop; [None] when the loop ends. *)
Definition iteration (s : session) : option run :=
  match find "|" (data s) with
  | Some measurement_delimiter_pos =>
      let message := take measurement_delimiter_pos (data s) in
      let s := set_data s (drop (S measurement_delimiter_pos) (data s)) in
      Some (handle_message s message)
  | None => None
  end.

(** The inner [while]. Every turn erases at least the delimiter, so
    [S (length (data s))] turns are enough: more fuel changes nothing
    ([drain_enough]) and the loop ends only when no delimiter is left
    ([drain_exit]). *)
Fixpoint drain (fuel : nat) (s : session) : run :=
  match fuel with
  | O => Running s
  | S fuel =>
      match iteration s with
      | None => Running s
      | Some (Running s') => drain fuel s'
      | Some (Terminated e s') => Terminated e s'
      end
  end.

(** One turn of the outer loop, [chunk] being the bytes [read] delivered
    (at most 255 at a time); nothing happens when [bytes_read] is 0. *)
Definition feed (s : session) (chunk : bytes) : run :=
  match chunk with
  | [] => Running s
  | _ =>
      let s := set_data s (data s ++ chunk) in
      drain (S (length (data s))) s
  end.

Fixpoint main_loop (r : run) (chunks : list bytes) : run :=
  match chunks, r with
  | [], _ => r
  | chunk :: chunks', Running s => main_loop (feed s chunk) chunks'
  | _ :: _, Terminated _ _ => r
  end.

(** [main] up to the loop: an empty table, [drawRadar(radar)], [data = ""]. *)
Definition initial : session :=
  drawRadar (mkSession [] [] ∅ [] []).

Definition session_of (r : run) : session :=
  match r with
  | Running s => s
  | Terminated _ s => s
  end.

(** The records handed to [updateRadar], in order. *)
Fixpoint records (t : list event) : list (Z * Z) :=
  match t with
  | [] => []
  | UpdateRadar degree distanceCM :: t' => (degree, distanceCM) :: records t'
  | _ :: t' => records t'
  end.

(** The lines written on [std::cerr], in order. *)
Fixpoint complaints (t : list event) : list bytes :=
  match t with
  | [] => []
  | Cerr text :: t' => text :: complaints t'
  | _ :: t' => complaints t'
  end.

(** ** Notions the statements use *)

Definition run_set_data (r : run) (d : bytes) : run :=
  match r with
  | Running s => Running (set_data s d)
  | Terminated e s => Terminated e (set_data s d)
  end.

(** The loop as the source has it, without the fuel. *)
Definition inner_loop (s : session) : run := drain (S (length (data s))) s.

(** What can be seen of a run: the buffer of a dead process is not. *)
Definition observe (r : run) : run :=
  match r with
  | Running s => Running s
  | Terminated e s => Terminated e (set_data s [])
  end.

Definition digits (ds : bytes) : bool :=
  match ds with
  | [] => false
  | _ => forallb isdigit ds
  end.

(** What follows the digits does not begin with one more digit. *)
Definition stops (tail : bytes) : bool :=
  match tail with
  | [] => true
  | c :: _ => negb (isdigit c)
  end.

(** An optional minus sign and digits: the text of a decimal integer. *)
Definition int_text (negative : bool) (ds : bytes) : bytes :=
  (if negative then ["-"%char] else []) ++ ds.

Definition int_value (negative : bool) (ds : bytes) : Z :=
  if negative then - read_digits 0 ds else read_digits 0 ds.

Definition fits_int (v : Z) : bool := (INT_MIN <=? v) && (v <=? INT_MAX).

(** What one turn of the trail loop draws. *)
Definition trail_line (color_change : Z) (entry : Z * Z) : Mat :=
  fst (draw_trail_line [] color_change entry).

(** The centres of the circles of a frame. *)
Fixpoint circle_centers (frame : Mat) : list Point :=
  match frame with
  | [] => []
  | circle center _ _ _ :: frame' => center :: circle_centers frame'
  | _ :: frame' => circle_centers frame'
  end.

(** The fade at index 0 (the newest entry): [200 - 5] on the green channel
    of the line, [255 - 5 * 1.4] on the red channel of the blip. *)
Definition baseIntensity : Z := 195.

(** A token [angle:distance|] as its two fields. *)
Definition token (m : bytes * bytes) : bytes := fst m ++ ":"%char :: snd m ++ ["|"%char].

(** Both fields are decimal literals of an [int]. *)
Definition well_formed (m : bytes * bytes) : bool :=
  digits (fst m) && fits_int (read_digits 0 (fst m))
  && digits (snd m) && fits_int (read_digits 0 (snd m)).

Definition decode (m : bytes * bytes) : Z * Z :=
  (read_digits 0 (fst m), read_digits 0 (snd m)).

Definition accept_all (s : session) (rs : list (Z * Z)) : session :=
  fold_left (fun s r => accept s (fst r) (snd r)) rs s.

(** ** Notions the further properties use *)

Definition is_running (r : run) : bool :=
  match r with
  | Running _ => true
  | Terminated _ _ => false
  end.

(** The messages of a buffer, each ended by a ['|'], and what follows the
    last ['|']. *)
Fixpoint split_frames (s : bytes) : list bytes * bytes :=
  match s with
  | [] => ([], [])
  | b :: s' =>
      let '(messages, rest) := split_frames s' in
      if Ascii.eqb b "|" then ([] :: messages, rest)
      else match messages with
           | [] => ([], b :: rest)
           | m :: messages' => ((b :: m) :: messages', rest)
           end
  end.

(** [handle_message] on each message in turn, up to the first exception. *)
Fixpoint handle_all (s : session) (messages : list bytes) : run :=
  match messages with
  | [] => Running s
  | m :: messages' =>
      match handle_message s m with
      | Running s' => handle_all s' messages'
      | Terminated e s' => Terminated e s'
      end
  end.

(** The distance of the first record for [angle] that passes the test of
    the table. *)
Fixpoint first_stored (angle : Z) (rs : list (Z * Z)) : option Z :=
  match rs with
  | [] => None
  | (degree, distanceCM) :: rs' =>
      if (degree =? angle) && (distanceCM <? 50) && (1 <? distanceCM)
      then Some distanceCM
      else first_stored angle rs'
  end.

(** The frames handed to [cv::imshow], in order. *)
Fixpoint shown (t : list event) : list Mat :=
  match t with
  | [] => []
  | Imshow frame :: t' => frame :: shown t'
  | _ :: t' => shown t'
  end.

(** The green channel of a line is within [0, 195], the red channel of a
    circle within [-25, 248]. *)
Definition channels_bounded (op : draw) : bool :=
  match op with
  | line _ _ color => Qle_bool 0 (v1 color) && Qle_bool (v1 color) 195
  | circle _ _ color _ => Qle_bool (-25) (v2 color) && Qle_bool (v2 color) 248
  | _ => true
  end.

Definition in_int (r : Z * Z) : Prop :=
  (INT_MIN <= fst r <= INT_MAX) /\ (INT_MIN <= snd r <= INT_MAX).

(** ** [main] from its first line *)






(** * Properties *)

(** ** Values of [std::stoi] and [std::to_string] *)

Example stoi_plain : stoi (str "30") = Ok 30.
Proof. reflexivity. Qed.

Example stoi_prefix : stoi (str "20abc") = Ok 20.
Proof. reflexivity. Qed.

Example stoi_float_text : stoi (str "17.25") = Ok 17.
Proof. reflexivity. Qed.

Example stoi_signed : stoi (str " -5") = Ok (-5).
Proof. reflexivity. Qed.

Example stoi_letters : stoi (str "abc") = Throw invalid_argument.
Proof. reflexivity. Qed.

Example stoi_empty : stoi [] = Throw invalid_argument.
Proof. reflexivity. Qed.

Example stoi_too_large : stoi (str "2147483648") = Throw out_of_range.
Proof. reflexivity. Qed.

Example stoi_int_min : stoi (str "-2147483648") = Ok INT_MIN.
Proof. reflexivity. Qed.

Example to_string_negative : to_string (-50) = str "-50".
Proof. reflexivity. Qed.

(** ** Facts about [find] *)

Lemma find_None (c : ascii) (s : bytes) : find c s = None <-> c ∉ s.
Proof.
  induction s as [|b s IH]; simpl.
  - split; [intros _; apply not_elem_of_nil | done].
  - destruct (Ascii.eqb_spec b c) as [->|Hne].
    + split; [done|]. intros H. exfalso. apply H. left.
    + rewrite not_elem_of_cons. destruct (find c s); simpl.
      * split; [done | intros [_ H]; by apply IH in H].
      * split; [intros _; split; [congruence | by apply IH] | done].
Qed.

Lemma find_here (c : ascii) (a rest : bytes) :
  c ∉ a -> find c (a ++ c :: rest) = Some (length a).
Proof.
  induction a as [|b a IH]; simpl; intros Hc.
  - by rewrite Ascii.eqb_refl.
  - apply not_elem_of_cons in Hc as [Hne Hc].
    destruct (Ascii.eqb_spec b c) as [->|_]; [done|].
    by rewrite IH.
Qed.

Lemma find_Some (c : ascii) (s : bytes) (n : nat) :
  find c s = Some n -> (c ∉ take n s) /\ s = take n s ++ c :: drop (S n) s.
Proof.
  revert n; induction s as [|b s IH]; simpl; intros n; [done|].
  destruct (Ascii.eqb_spec b c) as [->|Hne].
  - intros [= <-]. simpl. split; [apply not_elem_of_nil | done].
  - destruct (find c s) as [m|] eqn:E; simpl; [|done].
    intros [= <-]. destruct (IH m eq_refl) as [Hn Hs]. simpl. split.
    + apply not_elem_of_cons. split; [congruence | done].
    + by rewrite <- Hs.
Qed.

Lemma find_lt (c : ascii) (s : bytes) (n : nat) :
  find c s = Some n -> (n < length s)%nat.
Proof.
  revert n; induction s as [|b s IH]; simpl; intros n; [done|].
  destruct (Ascii.eqb b c); [intros [= <-]; lia|].
  destruct (find c s) as [m|]; simpl; [|done].
  intros [= <-]. specialize (IH m eq_refl). lia.
Qed.

Lemma find_app (c : ascii) (s e : bytes) (n : nat) :
  find c s = Some n -> find c (s ++ e) = Some n.
Proof.
  intros H. destruct (find_Some _ _ _ H) as [Hn Hs].
  assert (Hlen : length (take n s) = n).
  { rewrite length_take. apply Nat.min_l. apply find_lt in H. lia. }
  rewrite Hs, <- app_assoc. simpl. rewrite find_here; [|done]. by rewrite Hlen.
Qed.

(** ** The inner loop: the buffer only shrinks, and the fuel is enough *)

Lemma set_data_data (s : session) : set_data s (data s) = s.
Proof. by destruct s. Qed.

Lemma set_data_twice (s : session) (d d' : bytes) :
  set_data (set_data s d) d' = set_data s d'.
Proof. done. Qed.

(** [handle_message] neither reads nor writes [data]. *)
Lemma handle_message_set_data (s : session) (d message : bytes) :
  handle_message (set_data s d) message = run_set_data (handle_message s message) d.
Proof.
  unfold handle_message.
  destruct (find ":" message) as [pos|]; [|done].
  destruct (stoi (take pos message)); [|done].
  destruct (stoi (drop (S pos) message)); done.
Qed.

Lemma handle_message_data (s : session) (message : bytes) :
  data (session_of (handle_message s message)) = data s.
Proof.
  unfold handle_message.
  destruct (find ":" message) as [pos|]; [|done].
  destruct (stoi (take pos message)); [|done].
  destruct (stoi (drop (S pos) message)); done.
Qed.

Lemma iteration_shrinks (s s' : session) :
  iteration s = Some (Running s') -> (length (data s') < length (data s))%nat.
Proof.
  unfold iteration. destruct (find "|" (data s)) as [pos|] eqn:E; [|done].
  intros [= H]. apply find_lt in E.
  pose proof (handle_message_data (set_data s (drop (S pos) (data s)))
                                  (take pos (data s))) as Hd.
  rewrite H in Hd. simpl in Hd. rewrite Hd, length_drop. lia.
Qed.

(** Any fuel above the length of the buffer gives the same run: the loop
    is never cut short. *)
Lemma drain_enough (n m : nat) (s : session) :
  (length (data s) < n)%nat -> (length (data s) < m)%nat -> drain n s = drain m s.
Proof.
  revert m s; induction n as [|n IH]; intros m s Hn Hm; [lia|].
  destruct m as [|m]; [lia|]. simpl.
  destruct (iteration s) as [[s'|e s']|] eqn:E; [|done|done].
  apply iteration_shrinks in E. apply IH; lia.
Qed.

Lemma drain_S (n : nat) (s : session) :
  drain (S n) s =
  match iteration s with
  | None => Running s
  | Some (Running s') => drain n s'
  | Some (Terminated e s') => Terminated e s'
  end.
Proof. done. Qed.

Lemma inner_loop_unfold (s : session) :
  inner_loop s =
  match iteration s with
  | None => Running s
  | Some (Running s') => inner_loop s'
  | Some (Terminated e s') => Terminated e s'
  end.
Proof.
  unfold inner_loop. rewrite drain_S.
  destruct (iteration s) as [[s'|e s']|] eqn:E; [|done|done].
  apply iteration_shrinks in E. apply drain_enough; lia.
Qed.

(** When the loop ends normally no delimiter is left in the buffer. *)
Lemma drain_exit (n : nat) (s s' : session) :
  (length (data s) < n)%nat -> drain n s = Running s' -> find "|" (data s') = None.
Proof.
  revert s; induction n as [|n IH]; intros s Hn; [lia|]. simpl.
  destruct (iteration s) as [[s1|e s1]|] eqn:E; [| done |].
  - apply iteration_shrinks in E. apply IH. lia.
  - intros [= <-]. unfold iteration in E.
    by destruct (find "|" (data s)).
Qed.

Lemma inner_loop_exit (s s' : session) :
  inner_loop s = Running s' -> find "|" (data s') = None.
Proof. apply drain_exit. lia. Qed.

Lemma iteration_None (s : session) :
  find "|" (data s) = None -> inner_loop s = Running s.
Proof.
  intros H. rewrite inner_loop_unfold. unfold iteration. by rewrite H.
Qed.

(** Bytes appended behind a delimiter do not change the turn that consumes
    it; they stay in the buffer. *)
Lemma iteration_app (s : session) (e : bytes) (r : run) :
  iteration s = Some r ->
  iteration (set_data s (data s ++ e)) = Some (run_set_data r (data (session_of r) ++ e)).
Proof.
  unfold iteration. destruct (find "|" (data s)) as [pos|] eqn:E; [|done].
  intros [= <-]. simpl. rewrite (find_app _ _ e _ E).
  pose proof (find_lt _ _ _ E) as Hlt.
  rewrite take_app_le, drop_app_le by lia.
  rewrite handle_message_data. simpl.
  rewrite !handle_message_set_data.
  by destruct (handle_message s (take pos (data s))).
Qed.

Lemma inner_loop_app (e : bytes) (n : nat) (s : session) :
  (length (data s) < n)%nat ->
  inner_loop (set_data s (data s ++ e)) =
  match inner_loop s with
  | Running s1 => inner_loop (set_data s1 (data s1 ++ e))
  | Terminated ex s1 => Terminated ex (set_data s1 (data s1 ++ e))
  end.
Proof.
  revert s; induction n as [|n IH]; intros s Hn; [lia|].
  rewrite (inner_loop_unfold s).
  destruct (iteration s) as [r|] eqn:E.
  - rewrite inner_loop_unfold, (iteration_app _ _ _ E).
    destruct r as [s1|ex s1]; simpl; [|done].
    apply iteration_shrinks in E.
    rewrite <- (IH s1) by lia. done.
  - done.
Qed.

(** ** Chunks *)

Lemma feed_inner_loop (s : session) (chunk : bytes) :
  find "|" (data s) = None -> feed s chunk = inner_loop (set_data s (data s ++ chunk)).
Proof.
  intros H. destruct chunk as [|c chunk]; [|done].
  simpl. rewrite app_nil_r, set_data_data. symmetry. by apply iteration_None.
Qed.

Lemma feed_exit (s s' : session) (chunk : bytes) :
  find "|" (data s) = None -> feed s chunk = Running s' -> find "|" (data s') = None.
Proof.
  intros H. rewrite feed_inner_loop by done. apply inner_loop_exit.
Qed.

Lemma main_loop_Terminated (e : exn) (s : session) (chunks : list bytes) :
  main_loop (Terminated e s) chunks = Terminated e s.
Proof. by destruct chunks. Qed.

Lemma feed_app (s : session) (c1 c2 : bytes) :
  find "|" (data s) = None ->
  observe (feed s (c1 ++ c2)) =
  observe (match feed s c1 with Running s1 => feed s1 c2 | t => t end).
Proof.
  intros H. rewrite !feed_inner_loop by done.
  replace (set_data s (data s ++ c1 ++ c2))
    with (set_data (set_data s (data s ++ c1))
                   (data (set_data s (data s ++ c1)) ++ c2))
    by (unfold set_data; simpl; by rewrite app_assoc).
  rewrite (inner_loop_app c2 (S (length (data s ++ c1)))) by (simpl; lia).
  destruct (inner_loop (set_data s (data s ++ c1))) as [s1|e s1] eqn:E; [|done].
  apply inner_loop_exit in E. by rewrite feed_inner_loop.
Qed.

(** However the bytes are cut into chunks, the run is the one of the whole:
    same records, same frames, same table, same residue; when a field makes
    [std::stoi] raise, the process ends with the same exception after the
    same output. *)
Lemma main_loop_chunking (chunks : list bytes) (s : session) :
  find "|" (data s) = None ->
  observe (main_loop (Running s) chunks) = observe (feed s (concat chunks)).
Proof.
  revert s; induction chunks as [|c chunks IH]; intros s H; [done|].
  simpl concat. rewrite feed_app by done. cbn [main_loop].
  destruct (feed s c) as [s1|e s1] eqn:E.
  - apply IH. by apply (feed_exit s s1 c).
  - by rewrite main_loop_Terminated.
Qed.

Lemma observe_trace (r1 r2 : run) :
  observe r1 = observe r2 -> trace (session_of r1) = trace (session_of r2).
Proof.
  destruct r1 as [s1|e1 s1], r2 as [s2|e2 s2]; simpl; intros H;
    try discriminate H; injection H as H; by subst.
Qed.

Lemma observe_Running (r : run) (s : session) :
  observe r = Running s -> r = Running s.
Proof. by destruct r. Qed.

(** ** [std::stoi] on a field that starts with an integer *)

Lemma isdigit_plain (c : ascii) :
  isdigit c = true ->
  isspace c = false /\ Ascii.eqb c "-" = false /\ Ascii.eqb c "+" = false
  /\ c <> "|"%char /\ c <> ":"%char.
Proof.
  destruct c as [[] [] [] [] [] [] [] []]; vm_compute; intros H;
    try discriminate H; repeat split; discriminate.
Qed.

Lemma digits_without (c : ascii) (ds : bytes) :
  isdigit c = false -> forallb isdigit ds = true -> c ∉ ds.
Proof.
  intros Hc. induction ds as [|d ds IH]; simpl; [intros _; apply not_elem_of_nil|].
  intros [Hd Hds]%andb_true_iff. apply not_elem_of_cons. split; [|by apply IH].
  intros ->. congruence.
Qed.

Lemma read_digits_app (ds tail : bytes) (acc : Z) :
  forallb isdigit ds = true -> stops tail = true ->
  read_digits acc (ds ++ tail) = read_digits acc ds.
Proof.
  revert acc; induction ds as [|d ds IH]; simpl; intros acc Hds Htail.
  - destruct tail as [|c tail]; [done|]. simpl in *.
    by destruct (isdigit c).
  - apply andb_true_iff in Hds as [-> Hds]. by apply IH.
Qed.

Lemma stoi_int_text (negative : bool) (ds tail : bytes) :
  digits ds = true -> stops tail = true -> fits_int (int_value negative ds) = true ->
  stoi (int_text negative ds ++ tail) = Ok (int_value negative ds).
Proof.
  intros Hds Htail Hfits. destruct ds as [|d ds]; [done|].
  assert (Hall : forallb isdigit (d :: ds) = true) by done.
  simpl in Hds. apply andb_true_iff in Hds as [Hd _].
  destruct (isdigit_plain d Hd) as (Hsp & Hminus & Hplus & _).
  unfold stoi, int_text. destruct negative; simpl app; simpl skip_space.
  - cbv beta iota. change (Ascii.eqb "-" "-") with true. cbv beta iota. rewrite Hd.
    cbv zeta. change (d :: ds ++ tail) with ((d :: ds) ++ tail).
    rewrite (read_digits_app (d :: ds) tail 0 Hall Htail).
    unfold fits_int, int_value in Hfits. by rewrite Hfits.
  - rewrite Hsp, Hminus, Hplus, Hd.
    cbv zeta. change (d :: ds ++ tail) with ((d :: ds) ++ tail).
    rewrite (read_digits_app (d :: ds) tail 0 Hall Htail).
    unfold fits_int, int_value in Hfits. by rewrite Hfits.
Qed.

(** No digit where the number should start: [std::invalid_argument]. *)
Lemma stoi_no_digit (c : ascii) (field : bytes) :
  isspace c = false -> isdigit c = false ->
  Ascii.eqb c "-" = false -> Ascii.eqb c "+" = false ->
  stoi (c :: field) = Throw invalid_argument.
Proof.
  intros Hsp Hd Hminus Hplus. unfold stoi. simpl.
  by rewrite Hsp, Hminus, Hplus, Hd.
Qed.

(** ** One message *)

Lemma iteration_message (s : session) (message rest : bytes) :
  "|"%char ∉ message -> data s = message ++ "|"%char :: rest ->
  iteration s = Some (handle_message (set_data s rest) message).
Proof.
  intros Hbar Hdata. unfold iteration.
  rewrite Hdata, find_here by done.
  rewrite take_app_length.
  replace (S (length message)) with (length (message ++ ["|"%char]))
    by (rewrite length_app; simpl; lia).
  change (message ++ "|"%char :: rest) with (message ++ ["|"%char] ++ rest).
  by rewrite app_assoc, drop_app_length.
Qed.

Lemma handle_fields (s : session) (angle_field distance_field : bytes) :
  ":"%char ∉ angle_field ->
  handle_message s (angle_field ++ ":"%char :: distance_field) =
  match stoi angle_field with
  | Throw e => Terminated e s
  | Ok degree =>
      match stoi distance_field with
      | Throw e => Terminated e s
      | Ok distanceCM => Running (accept s degree distanceCM)
      end
  end.
Proof.
  intros Hcolon. unfold handle_message.
  rewrite find_here by done.
  rewrite take_app_length.
  replace (S (length angle_field)) with (length (angle_field ++ [":"%char]))
    by (rewrite length_app; simpl; lia).
  change (angle_field ++ ":"%char :: distance_field)
    with (angle_field ++ [":"%char] ++ distance_field).
  by rewrite app_assoc, drop_app_length.
Qed.

Lemma records_app (t u : list event) : records (t ++ u) = records t ++ records u.
Proof.
  induction t as [|[] t IH]; simpl; [done| done | done |]. by rewrite IH.
Qed.

Lemma complaints_app (t u : list event) :
  complaints (t ++ u) = complaints t ++ complaints u.
Proof.
  induction t as [|[] t IH]; simpl; [done| done | | done]. by rewrite IH.
Qed.

Lemma accept_records (s : session) (degree distanceCM : Z) :
  records (trace (accept s degree distanceCM)) = records (trace s) ++ [(degree, distanceCM)].
Proof.
  unfold accept, updateRadar, drawRadar. simpl.
  rewrite !records_app. simpl. by rewrite !app_nil_r.
Qed.

Lemma accept_complaints (s : session) (degree distanceCM : Z) :
  complaints (trace (accept s degree distanceCM)) = complaints (trace s).
Proof.
  unfold accept, updateRadar, drawRadar. simpl.
  rewrite !complaints_app. simpl. by rewrite !app_nil_r.
Qed.

Lemma accept_data (s : session) (degree distanceCM : Z) :
  data (accept s degree distanceCM) = data s.
Proof. done. Qed.

Lemma accept_line_deque (s : session) (degree distanceCM : Z) :
  line_deque (accept s degree distanceCM) = push_trail (degree, distanceCM) (line_deque s).
Proof. done. Qed.

Lemma accept_arduino_measurements (s : session) (degree distanceCM : Z) :
  arduino_measurements (accept s degree distanceCM) =
  store (arduino_measurements s) degree distanceCM.
Proof. done. Qed.

Lemma int_text_without (c : ascii) (negative : bool) (ds : bytes) :
  isdigit c = false -> c <> "-"%char -> digits ds = true -> c ∉ int_text negative ds.
Proof.
  intros Hc Hminus Hds. unfold int_text.
  assert (c ∉ ds).
  { apply digits_without; [done|]. by destruct ds. }
  destruct negative; simpl; [|done].
  apply not_elem_of_cons. done.
Qed.

(** ** The trail on the frame *)

Lemma draw_trail_line_frame (frame : Mat) (color_change : Z) (entry : Z * Z) :
  draw_trail_line frame color_change entry =
  (frame ++ trail_line color_change entry, color_change + 5).
Proof.
  unfold trail_line, draw_trail_line, drawLineAtAngle. simpl.
  destruct ((snd entry <? 50) && (2 <? snd entry)); simpl; [|done].
  by rewrite <- app_assoc.
Qed.

Lemma trail_line_shape (color_change angle distance : Z) :
  trail_line color_change (angle, distance) =
  line circle_center (PolarPt circle_center angle 100)
       (mkScalar 0 (inject_Z (200 - (color_change + 5))) 0)
  :: (if decide (2 < distance < 50)
      then [circle (calculate_circle_point angle (2 * distance)) 3
                   (mkScalar 0 8 (Q_of_double (255 - double_of_int (color_change + 5) * 1.4)%float))
                   (-1)]
      else []).
Proof.
  unfold trail_line, draw_trail_line, drawLineAtAngle. simpl.
  destruct (Z.ltb_spec distance 50), (Z.ltb_spec 2 distance); simpl;
    case_decide; try lia; try done.
  by rewrite (Z.mul_comm distance 2).
Qed.

Lemma draw_trail_entries (dq : list (Z * Z)) (frame : Mat) (color_change : Z) :
  draw_trail frame color_change dq =
  frame ++ concat (imap (fun i entry => trail_line (color_change + 5 * Z.of_nat i) entry) dq).
Proof.
  revert frame color_change; induction dq as [|entry dq IH]; intros frame color_change.
  - simpl. by rewrite app_nil_r.
  - cbn [draw_trail]. rewrite draw_trail_line_frame, IH.
    rewrite imap_cons. simpl concat. rewrite <- app_assoc.
    rewrite Z.mul_0_r, Z.add_0_r. do 3 f_equal.
    apply imap_ext. intros i x _. simpl. f_equal. lia.
Qed.

Lemma draw_info_frame (frame : Mat) (degree distanceCM : Z) :
  draw_info frame degree distanceCM = frame ++ draw_info [] degree distanceCM.
Proof.
  unfold draw_info. destruct (distanceCM <? 50); simpl; by rewrite <- app_assoc.
Qed.

(** The frame [updateRadar] composes: the template, the trail from the
    newest entry to the oldest, the text. *)
Lemma updateRadar_radar (s : session) (degree distanceCM : Z) :
  radar (updateRadar s degree distanceCM) =
  radar_template
  ++ concat (imap (fun i entry => trail_line (5 * Z.of_nat i) entry)
                  (push_trail (degree, distanceCM) (line_deque s)))
  ++ draw_info [] degree distanceCM.
Proof.
  unfold updateRadar. cbn [radar drawRadar line_deque].
  rewrite draw_info_frame, draw_trail_entries, <- app_assoc. done.
Qed.

Lemma circle_centers_app (f g : Mat) :
  circle_centers (f ++ g) = circle_centers f ++ circle_centers g.
Proof.
  induction f as [|[] f IH]; simpl; try done. by rewrite IH.
Qed.

Lemma push_trail_cons (m : Z * Z) (dq : list (Z * Z)) :
  push_trail m dq = m :: (if decide (length dq < 40)%nat then dq else removelast dq).
Proof.
  unfold push_trail. destruct dq as [|m' dq]; [done|].
  cbn [length]. case_decide.
  - destruct (Nat.ltb_spec 40 (S (S (length dq)))); [lia|done].
  - destruct (Nat.ltb_spec 40 (S (S (length dq)))); [done|lia].
Qed.

(** ** Streams of well-formed tokens *)

Lemma accept_set_data (s : session) (d : bytes) (degree distanceCM : Z) :
  accept (set_data s d) degree distanceCM = set_data (accept s degree distanceCM) d.
Proof. done. Qed.

Lemma accept_all_set_data (rs : list (Z * Z)) (s : session) (d : bytes) :
  accept_all (set_data s d) rs = set_data (accept_all s rs) d.
Proof.
  revert s; induction rs as [|r rs IH]; intros s; [done|].
  simpl. by rewrite accept_set_data, IH.
Qed.

Lemma accept_all_records (rs : list (Z * Z)) (s : session) :
  records (trace (accept_all s rs)) = records (trace s) ++ rs.
Proof.
  revert s; induction rs as [|[a d] rs IH]; intros s; simpl.
  - by rewrite app_nil_r.
  - rewrite IH, accept_records, <- app_assoc. done.
Qed.

Lemma accept_all_complaints (rs : list (Z * Z)) (s : session) :
  complaints (trace (accept_all s rs)) = complaints (trace s).
Proof.
  revert s; induction rs as [|[a d] rs IH]; intros s; simpl; [done|].
  by rewrite IH, accept_complaints.
Qed.

Lemma stoi_literal (ds : bytes) :
  digits ds = true -> fits_int (read_digits 0 ds) = true -> stoi ds = Ok (read_digits 0 ds).
Proof.
  intros Hds Hfits.
  pose proof (stoi_int_text false ds [] Hds eq_refl Hfits) as H.
  unfold int_text in H. simpl in H. by rewrite app_nil_r in H.
Qed.

Lemma digits_forallb (ds : bytes) : digits ds = true -> forallb isdigit ds = true.
Proof. by destruct ds. Qed.

Lemma handle_token (s : session) (m : bytes * bytes) :
  well_formed m = true ->
  handle_message s (fst m ++ ":"%char :: snd m) =
  Running (accept s (fst (decode m)) (snd (decode m))).
Proof.
  unfold well_formed. intros [[[Ha Hva]%andb_true_iff Hd]%andb_true_iff Hvd]%andb_true_iff.
  rewrite handle_fields by (apply digits_without; [done | by apply digits_forallb]).
  by rewrite (stoi_literal _ Ha Hva), (stoi_literal _ Hd Hvd).
Qed.

Lemma token_message (m : bytes * bytes) :
  well_formed m = true -> "|"%char ∉ fst m ++ ":"%char :: snd m.
Proof.
  unfold well_formed. intros [[[Ha _]%andb_true_iff Hd]%andb_true_iff _]%andb_true_iff.
  rewrite not_elem_of_app, not_elem_of_cons. repeat split.
  - apply digits_without; [done | by apply digits_forallb].
  - discriminate.
  - apply digits_without; [done | by apply digits_forallb].
Qed.

Lemma inner_loop_tokens (tokens : list (bytes * bytes)) (s : session) (partial : bytes) :
  forallb well_formed tokens = true -> "|"%char ∉ partial ->
  data s = concat (map token tokens) ++ partial ->
  inner_loop s = Running (set_data (accept_all s (map decode tokens)) partial).
Proof.
  revert s; induction tokens as [|m tokens IH]; intros s Hwf Hbar Hdata.
  - simpl in *. rewrite <- Hdata, set_data_data.
    apply iteration_None. apply find_None. by rewrite Hdata.
  - simpl in Hwf. apply andb_true_iff in Hwf as [Hm Hwf].
    assert (Hs : data s = (fst m ++ ":"%char :: snd m) ++ "|"%char
                          :: (concat (map token tokens) ++ partial)).
    { rewrite Hdata. cbn [map concat]. unfold token.
      rewrite <- !app_assoc. cbn [app]. by rewrite <- !app_assoc. }
    rewrite inner_loop_unfold, (iteration_message _ _ _ (token_message m Hm) Hs).
    rewrite (handle_token _ m Hm).
    rewrite (IH _ Hwf Hbar) by done.
    simpl. by rewrite accept_set_data, accept_all_set_data, set_data_twice.
Qed.

(** ** The framer *)

(** C1. The bytes of a stream are cut into chunks in any way (single
    bytes, empty reads): the run is the one of the stream fed in one piece,
    with the same records in the same order. When the stream is made of
    well-formed [angle:distance|] tokens followed by the beginning of a next
    token, the run does not end on an exception, the records handed on are
    exactly the tokens in order, nothing is written on [std::cerr], and the
    bytes after the last delimiter are what stays in [data]. *)
Theorem chunking_gives_the_same_records (s : session) (chunks : list bytes) :
  data s = [] ->
  observe (main_loop (Running s) chunks) = observe (main_loop (Running s) [concat chunks])
  /\ records (trace (session_of (main_loop (Running s) chunks)))
     = records (trace (session_of (main_loop (Running s) [concat chunks])))
  /\ forall (tokens : list (bytes * bytes)) (partial : bytes),
       forallb well_formed tokens = true ->
       find "|" partial = None ->
       concat chunks = concat (map token tokens) ++ partial ->
       exists s',
         main_loop (Running s) chunks = Running s'
         /\ main_loop (Running s) [concat chunks] = Running s'
         /\ records (trace s') = records (trace s) ++ map decode tokens
         /\ complaints (trace s') = complaints (trace s)
         /\ data s' = partial.
Proof.
  intros Hempty.
  assert (Hnone : find "|" (data s) = None) by (by rewrite Hempty).
  assert (Hobs : observe (main_loop (Running s) chunks)
                 = observe (main_loop (Running s) [concat chunks]))
    by (by rewrite main_loop_chunking).
  split; [done|]. split.
  - by rewrite (observe_trace _ _ Hobs).
  - intros tokens partial Hwf Hbar%find_None Hcut.
    assert (Hwhole : feed s (concat chunks)
                     = Running (set_data (accept_all s (map decode tokens)) partial)).
    { rewrite feed_inner_loop by done.
      rewrite <- (accept_all_set_data _ s partial).
      rewrite <- (set_data_twice s (data s ++ concat chunks) partial).
      rewrite accept_all_set_data.
      apply inner_loop_tokens; [done | done |].
      simpl. by rewrite Hempty, Hcut. }
    exists (set_data (accept_all s (map decode tokens)) partial).
    split; [|split; [|split; [|split]]].
    + apply observe_Running. by rewrite main_loop_chunking, Hwhole.
    + done.
    + simpl. apply accept_all_records.
    + simpl. apply accept_all_complaints.
    + done.
Qed.

Lemma chunking_gives_the_same_records_witness :
  exists s',
    main_loop (Running initial)
              [str "3"; str "0:2"; []; str "0|90"; str ":"; str "5"; str "|1"; str "2"]
    = Running s'
    /\ main_loop (Running initial) [str "30:20|90:5|12"] = Running s'
    /\ records (trace s') = [(30, 20); (90, 5)]
    /\ complaints (trace s') = []
    /\ data s' = str "12".
Proof.
  apply (proj2 (proj2 (chunking_gives_the_same_records initial
           [str "3"; str "0:2"; []; str "0|90"; str ":"; str "5"; str "|1"; str "2"]
           eq_refl))
           [(str "30", str "20"); (str "90", str "5")] (str "12"));
    reflexivity.
Defined.

Example scenario_tail :
  let r := main_loop (Running initial) [str "30:20|x|90:5|200:20abc|5:60|3"] in
  r = Running (session_of r)
  /\ data (session_of r) = str "3"
  /\ line_deque (session_of r) = [(5, 60); (200, 20); (90, 5); (30, 20)]
  /\ records (trace (session_of r)) = [(30, 20); (90, 5); (200, 20); (5, 60)]
  /\ complaints (trace (session_of r)) = [invalid_format ++ str "x"]
  /\ map_to_list (arduino_measurements (session_of r)) = [(30, 20); (90, 5); (200, 20)].
Proof. vm_compute. repeat split. Qed.

Example one_byte_at_a_time :
  main_loop (Running initial) (map (fun b => [b]) (str "30:20|x|90:5|200:20abc|5:60|3"))
  = main_loop (Running initial) [str "30:20|x|90:5|200:20abc|5:60|3"].
Proof. vm_compute. reflexivity. Qed.

(** C7. A message without [':'], cut out of the buffer at the first ['|']:
    one turn of the loop writes it on [std::cerr] and drops it. No record
    is handed on, trail, table and frame are untouched, the buffer is what
    followed the delimiter, and the loop goes on from there. *)
Theorem message_without_colon_is_dropped (s : session) (message rest : bytes) :
  find ":" message = None ->
  find "|" message = None ->
  data s = message ++ "|"%char :: rest ->
  let s' := mkSession rest (line_deque s) (arduino_measurements s) (radar s)
                      (trace s ++ [Cerr (invalid_format ++ message)]) in
  iteration s = Some (Running s')
  /\ inner_loop s = inner_loop s'
  /\ records (trace s') = records (trace s)
  /\ complaints (trace s') = complaints (trace s) ++ [invalid_format ++ message].
Proof.
  intros Hcolon Hbar%find_None Hdata s'.
  assert (Hit : iteration s = Some (Running s')).
  { rewrite (iteration_message s message rest Hbar Hdata).
    unfold handle_message. by rewrite Hcolon. }
  split; [done|]. split; [|split].
  - by rewrite inner_loop_unfold, Hit.
  - subst s'. simpl. rewrite records_app. simpl. by rewrite app_nil_r.
  - subst s'. simpl. by rewrite complaints_app.
Qed.

Lemma message_without_colon_is_dropped_witness :
  iteration (set_data initial (str "garbage|30:20|"))
  = Some (Running (mkSession (str "30:20|") [] ∅ radar_template
                     [Imshow radar_template; Cerr (invalid_format ++ str "garbage")]))
  /\ inner_loop (set_data initial (str "garbage|30:20|"))
     = inner_loop (mkSession (str "30:20|") [] ∅ radar_template
                     [Imshow radar_template; Cerr (invalid_format ++ str "garbage")])
  /\ records [Imshow radar_template; Cerr (invalid_format ++ str "garbage")] = []
  /\ complaints [Imshow radar_template; Cerr (invalid_format ++ str "garbage")]
     = [invalid_format ++ str "garbage"].
Proof.
  apply (message_without_colon_is_dropped
           (set_data initial (str "garbage|30:20|")) (str "garbage") (str "30:20|"));
    reflexivity.
Defined.

Example resynchronised_after_garbage :
  let r := main_loop (Running initial) [str "garb"; str "age|30:"; str "20|"] in
  r = Running (session_of r)
  /\ records (trace (session_of r)) = [(30, 20)]
  /\ line_deque (session_of r) = [(30, 20)]
  /\ data (session_of r) = [].
Proof. vm_compute. repeat split. Qed.

(** C9, amended. A message whose fields each begin with a decimal integer
    that fits in an [int] (an optional minus sign, digits) and go on, or
    not, with anything that does not start with a digit, such as [20abc] or
    [17.25]: [std::stoi] stops at the first such character, the record with
    the two integers is handed on, the process goes on and nothing is
    written on [std::cerr]. *)
Theorem integer_prefix_is_accepted
    (s : session) (neg_a neg_d : bool) (a tail_a d tail_d rest : bytes) :
  digits a = true -> stops tail_a = true -> fits_int (int_value neg_a a) = true ->
  digits d = true -> stops tail_d = true -> fits_int (int_value neg_d d) = true ->
  find ":" tail_a = None -> find "|" tail_a = None -> find "|" tail_d = None ->
  data s = (int_text neg_a a ++ tail_a) ++ ":"%char
           :: (int_text neg_d d ++ tail_d) ++ "|"%char :: rest ->
  let s' := accept (set_data s rest) (int_value neg_a a) (int_value neg_d d) in
  iteration s = Some (Running s')
  /\ records (trace s') = records (trace s) ++ [(int_value neg_a a, int_value neg_d d)]
  /\ complaints (trace s') = complaints (trace s)
  /\ data s' = rest.
Proof.
  intros Ha Hta Hva Hd Htd Hvd Hcolon%find_None Hbar_a%find_None Hbar_d%find_None Hdata s'.
  assert (Hbar : "|"%char ∉ (int_text neg_a a ++ tail_a) ++ ":"%char
                             :: (int_text neg_d d ++ tail_d)).
  { rewrite !not_elem_of_app, not_elem_of_cons, not_elem_of_app.
    repeat split; try done; try discriminate; by apply int_text_without. }
  assert (Hs : data s = ((int_text neg_a a ++ tail_a) ++ ":"%char
                         :: (int_text neg_d d ++ tail_d)) ++ "|"%char :: rest).
  { rewrite Hdata. rewrite <- !app_assoc. cbn [app]. by rewrite <- !app_assoc. }
  split; [|split; [|split]].
  - rewrite (iteration_message s _ rest Hbar Hs).
    rewrite handle_fields.
    + by rewrite (stoi_int_text _ _ _ Ha Hta Hva), (stoi_int_text _ _ _ Hd Htd Hvd).
    + rewrite not_elem_of_app. split; [|done]. by apply int_text_without.
  - subst s'. by rewrite accept_records.
  - subst s'. by rewrite accept_complaints.
  - done.
Qed.

Lemma integer_prefix_is_accepted_witness :
  iteration (set_data initial (str "-30deg:20abc|90:5|"))
  = Some (Running (accept (set_data initial (str "90:5|")) (-30) 20))
  /\ records (trace (accept (set_data initial (str "90:5|")) (-30) 20)) = [(-30, 20)]
  /\ complaints (trace (accept (set_data initial (str "90:5|")) (-30) 20)) = []
  /\ data (accept (set_data initial (str "90:5|")) (-30) 20) = str "90:5|".
Proof.
  apply (integer_prefix_is_accepted
           (set_data initial (str "-30deg:20abc|90:5|"))
           true false (str "30") (str "deg") (str "20") (str "abc") (str "90:5|"));
    reflexivity.
Defined.

(** C9 as it stands fails when the digits before the tail are too many for
    an [int]: [std::stoi] raises [std::out_of_range] and the process ends
    without a record. *)
Lemma integer_prefix_too_large :
  digits (str "99999999999") = true
  /\ stops (str "abc") = true
  /\ iteration (set_data initial (str "30:99999999999abc|"))
     = Some (Terminated out_of_range (set_data initial []))
  /\ records (trace (session_of
        (main_loop (Running initial) [str "30:99999999999abc|"; str "90:5|"]))) = [].
Proof. vm_compute. repeat split. Qed.

Example prefix_in_a_stream :
  let r := main_loop (Running initial) [str "30:20abc|90:5.75|"] in
  r = Running (session_of r)
  /\ records (trace (session_of r)) = [(30, 20); (90, 5)]
  /\ complaints (trace (session_of r)) = [].
Proof. vm_compute. repeat split. Qed.

(** C10. Whatever two integers the fields parse to (an angle of 200, a
    negative or a zero distance), the record goes to [updateRadar]
    unchecked: it is pushed on the front of the trail, its line is the first
    of the trail on the frame, drawn from the centre with length 100 at the
    intensity of the newest entry like any other, and the frame is shown. *)
Theorem no_range_check_before_rendering
    (s : session) (message : bytes) (pos : nat) (degree distanceCM : Z) :
  find ":" message = Some pos ->
  stoi (take pos message) = Ok degree ->
  stoi (drop (S pos) message) = Ok distanceCM ->
  let s' := accept s degree distanceCM in
  handle_message s message = Running s'
  /\ line_deque s' = push_trail (degree, distanceCM) (line_deque s)
  /\ hd_error (line_deque s') = Some (degree, distanceCM)
  /\ (exists older,
        radar s' =
        radar_template
        ++ trail_line 0 (degree, distanceCM)
        ++ older ++ draw_info [] degree distanceCM)
  /\ hd_error (trail_line 0 (degree, distanceCM))
     = Some (line circle_center (PolarPt circle_center degree 100)
                  (mkScalar 0 (inject_Z baseIntensity) 0))
  /\ last (trace s') = Some (Imshow (radar s')).
Proof.
  intros Hpos Hdeg Hdist s'. split; [|split; [|split; [|split; [|split]]]].
  - unfold handle_message. by rewrite Hpos, Hdeg, Hdist.
  - done.
  - subst s'. by rewrite accept_line_deque, push_trail_cons.
  - subst s'. unfold accept. cbn [radar]. rewrite updateRadar_radar.
    cbn [line_deque]. rewrite push_trail_cons, imap_cons. cbn [concat].
    eexists. by rewrite <- app_assoc.
  - by rewrite trail_line_shape.
  - subst s'. unfold accept, updateRadar. cbn [trace radar]. by rewrite last_snoc.
Qed.

Lemma no_range_check_before_rendering_witness :
  handle_message initial (str "200:-5") = Running (accept initial 200 (-5))
  /\ line_deque (accept initial 200 (-5)) = [(200, -5)]
  /\ hd_error (line_deque (accept initial 200 (-5))) = Some (200, -5)
  /\ (exists older,
        radar (accept initial 200 (-5)) =
        radar_template ++ trail_line 0 (200, -5) ++ older ++ draw_info [] 200 (-5))
  /\ hd_error (trail_line 0 (200, -5))
     = Some (line circle_center (PolarPt circle_center 200 100) (mkScalar 0 195 0))
  /\ last (trace (accept initial 200 (-5))) = Some (Imshow (radar (accept initial 200 (-5)))).
Proof.
  apply (no_range_check_before_rendering initial (str "200:-5") 3 200 (-5));
    reflexivity.
Defined.

Example out_of_range_records_in_a_stream :
  let r := main_loop (Running initial) [str "200:-5|999:0|"] in
  r = Running (session_of r)
  /\ line_deque (session_of r) = [(999, 0); (200, -5)]
  /\ map_to_list (arduino_measurements (session_of r)) = [].
Proof. vm_compute. repeat split. Qed.

(** ** Properties kept by the whole loop *)

Section Invariant.
Variable P : session -> Prop.
Hypothesis P_set_data : forall s d, P s -> P (set_data s d).
Hypothesis P_accept : forall s degree distanceCM, P s -> P (accept s degree distanceCM).
Hypothesis P_cerr : forall s text,
  P s ->
  P (mkSession (data s) (line_deque s) (arduino_measurements s) (radar s)
               (trace s ++ [Cerr text])).

Lemma handle_message_keeps (s : session) (message : bytes) :
  P s -> P (session_of (handle_message s message)).
Proof using P_accept P_cerr.
  intros H. unfold handle_message.
  destruct (find ":" message) as [pos|]; [|by apply P_cerr].
  destruct (stoi (take pos message)); [|done].
  destruct (stoi (drop (S pos) message)); [|done].
  by apply P_accept.
Qed.

Lemma drain_keeps (fuel : nat) (s : session) : P s -> P (session_of (drain fuel s)).
Proof using P_set_data P_accept P_cerr.
  revert s; induction fuel as [|fuel IH]; intros s H; [done|].
  rewrite drain_S. destruct (iteration s) as [r|] eqn:E; [|done].
  unfold iteration in E. destruct (find "|" (data s)) as [pos|]; [|done].
  injection E as <-.
  pose proof (handle_message_keeps (set_data s (drop (S pos) (data s)))
                (take pos (data s)) (P_set_data _ _ H)) as Hk.
  destruct (handle_message _ _) as [s'|e s']; [by apply IH | done].
Qed.

Lemma feed_keeps (s : session) (chunk : bytes) : P s -> P (session_of (feed s chunk)).
Proof using P_set_data P_accept P_cerr.
  intros H. destruct chunk as [|c chunk]; [done|].
  apply drain_keeps. by apply P_set_data.
Qed.

Lemma main_loop_keeps (chunks : list bytes) (r : run) :
  P (session_of r) -> P (session_of (main_loop r chunks)).
Proof using P_set_data P_accept P_cerr.
  revert r; induction chunks as [|c chunks IH]; intros r H; [done|].
  destruct r as [s|e s]; [|done]. simpl. apply IH. by apply feed_keeps.
Qed.
End Invariant.

(** ** The trail buffer *)

Lemma push_trail_length (m : Z * Z) (dq : list (Z * Z)) :
  (length dq <= 40)%nat -> (length (push_trail m dq) <= 40)%nat.
Proof.
  intros H. rewrite push_trail_cons. case_decide; simpl; [lia|].
  destruct dq as [|m' dq]; [simpl in *; lia|].
  rewrite removelast_firstn_len, length_take. simpl in *. lia.
Qed.

Lemma push_trail_take (m : Z * Z) (l : list (Z * Z)) :
  push_trail m (take 40 l) = take 40 (m :: l).
Proof.
  rewrite push_trail_cons. rewrite length_take.
  change (take 40 (m :: l)) with (m :: take 39 l). f_equal.
  case_decide.
  - rewrite !take_ge; [done | lia | lia].
  - rewrite removelast_firstn_len, length_take, take_take.
    f_equal. lia.
Qed.

Lemma pushes_take (pushes : list (Z * Z)) (l : list (Z * Z)) :
  fold_left (fun dq m => push_trail m dq) pushes (take 40 l)
  = take 40 (rev pushes ++ l).
Proof.
  revert l; induction pushes as [|m pushes IH]; intros l; [done|].
  simpl. rewrite push_trail_take, IH, <- app_assoc. done.
Qed.

(** C3. After any sequence of pushes on the empty deque the trail holds at
    most 40 entries: the 40 latest, newest first. One more push puts the new
    entry at the front; below 40 entries nothing leaves, at 40 the entry at
    the back leaves and no other. The same bound holds for [line_deque] in
    every state the read loop reaches, whatever bytes arrive. *)
Theorem trail_holds_the_forty_latest (pushes : list (Z * Z)) (m : Z * Z) :
  let dq := fold_left (fun dq m => push_trail m dq) pushes [] in
  (length dq <= 40)%nat
  /\ dq = take 40 (rev pushes)
  /\ hd_error (push_trail m dq) = Some m
  /\ ((length dq < 40)%nat -> push_trail m dq = m :: dq)
  /\ (forall kept oldest, length dq = 40%nat -> dq = kept ++ [oldest] ->
        push_trail m dq = m :: kept)
  /\ (forall (s : session) (degree distanceCM : Z),
        line_deque (updateRadar s degree distanceCM)
        = push_trail (degree, distanceCM) (line_deque s))
  /\ (forall chunks : list bytes,
        (length (line_deque (session_of (main_loop (Running initial) chunks))) <= 40)%nat).
Proof.
  intros dq.
  assert (Hdq : dq = take 40 (rev pushes)).
  { subst dq. change (@nil (Z * Z)) with (take 40 (@nil (Z * Z))).
    by rewrite pushes_take, app_nil_r. }
  assert (Hlen : (length dq <= 40)%nat) by (rewrite Hdq, length_take; lia).
  split; [done|]. split; [done|]. split; [by rewrite push_trail_cons|].
  split; [|split; [|split]].
  - intros H. rewrite push_trail_cons. by case_decide.
  - intros kept oldest H40 Hsplit. rewrite push_trail_cons.
    case_decide; [lia|]. by rewrite Hsplit, removelast_last.
  - done.
  - intros chunks.
    apply (main_loop_keeps (fun s => (length (line_deque s) <= 40)%nat)).
    + done.
    + intros s degree distanceCM H. rewrite accept_line_deque. by apply push_trail_length.
    + done.
    + simpl. lia.
Qed.

Lemma trail_holds_the_forty_latest_witness :
  push_trail (41, 41) (map (fun n => (Z.of_nat n, Z.of_nat n)) (rev (seq 1 40)))
  = (41, 41) :: map (fun n => (Z.of_nat n, Z.of_nat n)) (rev (seq 2 39)).
Proof.
  refine (proj1 (proj2 (proj2 (proj2 (proj2
            (trail_holds_the_forty_latest
               (map (fun n => (Z.of_nat n, Z.of_nat n)) (seq 1 40)) (41, 41))))))
            (map (fun n => (Z.of_nat n, Z.of_nat n)) (rev (seq 2 39))) (1, 1) _ _);
    reflexivity.
Defined.

Example forty_first_record_evicts_the_oldest :
  let stream := concat (map (fun k => to_string k ++ str ":10|") (seqZ 1 41)) in
  let s := session_of (main_loop (Running initial) [stream]) in
  length (line_deque s) = 40%nat
  /\ hd_error (line_deque s) = Some (41, 10)
  /\ last (line_deque s) = Some (2, 10).
Proof. vm_compute. repeat split. Qed.

(** ** The measurement table *)

Lemma store_keeps (table : gmap Z Z) (degree distanceCM a v : Z) :
  table !! a = Some v -> store table degree distanceCM !! a = Some v.
Proof.
  intros H. unfold store.
  destruct ((distanceCM <? 50) && (1 <? distanceCM)); simpl; [|done].
  case_bool_decide as Hfree; simpl; [|done].
  rewrite lookup_insert_ne; [done|]. intros ->. congruence.
Qed.

Lemma store_origin (table : gmap Z Z) (degree distanceCM k w : Z) :
  store table degree distanceCM !! k = Some w ->
  table !! k = Some w
  \/ (k = degree /\ w = distanceCM /\ 1 < distanceCM < 50 /\ table !! degree = None).
Proof.
  unfold store.
  destruct (Z.ltb_spec distanceCM 50), (Z.ltb_spec 1 distanceCM); simpl; auto.
  case_bool_decide as Hfree; simpl; auto.
  destruct (decide (degree = k)) as [->|Hne].
  - rewrite lookup_insert_eq. intros [= <-]. right. repeat split; done || lia.
  - rewrite lookup_insert_ne by done. auto.
Qed.

(** C4. An entry that is in the table stays as it is whatever bytes arrive
    later, and a later record for its angle leaves the table unchanged.
    Every entry of the table is a record that was handed on with
    [1 < distance < 50]; a record changes the table only as the insertion
    of its own angle, free until then, with such a distance. *)
Theorem table_first_write_wins (before later : list bytes) (a v : Z) :
  let r := main_loop (Running initial) before in
  arduino_measurements (session_of r) !! a = Some v ->
  arduino_measurements (session_of (main_loop r later)) !! a = Some v
  /\ (forall (s : session) (distanceCM : Z),
        arduino_measurements s !! a = Some v ->
        arduino_measurements (accept s a distanceCM) = arduino_measurements s)
  /\ 1 < v < 50
  /\ (a, v) ∈ records (trace (session_of r))
  /\ (forall (s : session) (degree distanceCM : Z),
        arduino_measurements (accept s degree distanceCM) <> arduino_measurements s ->
        1 < distanceCM < 50
        /\ arduino_measurements s !! degree = None
        /\ arduino_measurements (accept s degree distanceCM)
           = <[degree := distanceCM]> (arduino_measurements s)).
Proof.
  intros r Hin. split; [|split; [|split; [|split]]].
  - by apply (main_loop_keeps (fun s => arduino_measurements s !! a = Some v));
      try done; intros s degree distanceCM H; rewrite accept_arduino_measurements;
      apply store_keeps.
  - intros s distanceCM H. rewrite accept_arduino_measurements. unfold store.
    case_bool_decide; [congruence|]. by rewrite andb_false_r.
  - assert (Hall : forall k w, arduino_measurements (session_of r) !! k = Some w ->
                               1 < w < 50); [|by apply (Hall a v)].
    apply (main_loop_keeps
             (fun s => forall k w, arduino_measurements s !! k = Some w -> 1 < w < 50));
      try done.
    intros s degree distanceCM H k w. rewrite accept_arduino_measurements.
    intros [Hold|(_ & -> & Hband & _)]%store_origin; [by apply (H k w) | done].
  - assert (Hall : forall k w, arduino_measurements (session_of r) !! k = Some w ->
                               (k, w) ∈ records (trace (session_of r)));
      [|by apply (Hall a v)].
    apply (main_loop_keeps
             (fun s => forall k w, arduino_measurements s !! k = Some w ->
                                   (k, w) ∈ records (trace s))); try done.
    + intros s degree distanceCM H k w.
      rewrite accept_arduino_measurements, accept_records, elem_of_app.
      intros [Hold|(-> & -> & _)]%store_origin; [left; by apply H|right; left].
    + intros s text H k w Hk. simpl. rewrite records_app, elem_of_app.
      left. by apply H.
  - intros s degree distanceCM. rewrite accept_arduino_measurements. unfold store.
    destruct (Z.ltb_spec distanceCM 50), (Z.ltb_spec 1 distanceCM); simpl; try done.
    case_bool_decide; simpl; [|done]. intros _. repeat split; done || lia.
Qed.

Lemma table_first_write_wins_witness :
  arduino_measurements
    (session_of (main_loop (main_loop (Running initial) [str "30:20|90:60|"])
                           [str "30:45|"; str "90:7|"])) !! 30 = Some 20.
Proof.
  refine (proj1 (table_first_write_wins [str "30:20|90:60|"] [str "30:45|"; str "90:7|"]
                   30 20 _)).
  reflexivity.
Defined.

Example later_record_same_angle :
  let r := main_loop (Running initial) [str "30:20|90:60|30:45|90:7|5:1|6:50|7:2|8:49|"] in
  map (fun k => arduino_measurements (session_of r) !! k) [30; 90; 5; 6; 7; 8]
  = [Some 20; Some 7; None; None; Some 2; Some 49].
Proof. vm_compute. reflexivity. Qed.

(** ** The fade and the blips *)






Example oldest_of_forty_is_black_and_negative :
  trail_line (5 * 39) (90, 10)
  = [line circle_center (PolarPt circle_center 90 100) (mkScalar 0 0 0);
     circle (PolarPt circle_center 90 20) 3 (mkScalar 0 8 (-25)) (-1)].
Proof. vm_compute. reflexivity. Qed.

Lemma draw_trail_circles (trail : list (Z * Z)) (frame : Mat) (color_change : Z) :
  circle_centers (draw_trail frame color_change trail)
  = circle_centers frame
    ++ map (fun m => calculate_circle_point (fst m) (2 * snd m))
           (filter (fun m => 2 < snd m < 50) trail).
Proof.
  revert frame color_change; induction trail as [|[angle distance] trail IH];
    intros frame color_change.
  - simpl. by rewrite app_nil_r.
  - cbn [draw_trail]. rewrite draw_trail_line_frame, IH, circle_centers_app.
    rewrite trail_line_shape, filter_cons. cbn [snd fst].
    case_decide; simpl; by rewrite <- app_assoc.
Qed.

(** C6. The circles the trail loop draws are, in order, those of the entries
    with [2 < distance < 50], each at the point [calculate_circle_point]
    gives for the entry's angle and the length [2 * distance] from the
    centre: none for a distance of 1, 2 or 50, one at length 98 for 49. *)
Theorem blip_exactly_inside_the_band (trail : list (Z * Z)) (angle : Z) :
  circle_centers (draw_trail [] 0 trail)
  = map (fun m => PolarPt circle_center (fst m) (2 * snd m))
        (filter (fun m => 2 < snd m < 50) trail)
  /\ circle_centers (draw_trail [] 0 [(angle, 1)]) = []
  /\ circle_centers (draw_trail [] 0 [(angle, 2)]) = []
  /\ circle_centers (draw_trail [] 0 [(angle, 49)]) = [PolarPt circle_center angle 98]
  /\ circle_centers (draw_trail [] 0 [(angle, 50)]) = []
  /\ circle_centers (draw_trail [] 0 [(angle, 3)]) = [PolarPt circle_center angle 6].
Proof.
  split; [apply draw_trail_circles | repeat split].
Qed.

Example blips_of_a_frame :
  circle_centers
    (drop (length radar_template)
          (radar (session_of (main_loop (Running initial)
                                        [str "10:1|20:2|30:3|40:49|50:50|60:-7|"]))))
  = [PolarPt circle_center 40 98; PolarPt circle_center 30 6].
Proof. vm_compute. reflexivity. Qed.

(** ** A field that is not a number *)

(** The first field parses and the second has no digit where the number
    should start: the turn that consumes the message ends the process on
    [std::invalid_argument], before [updateRadar] and before any line of
    [main] on [std::cerr]. *)
Lemma non_numeric_distance_terminates
    (s : session) (a : bytes) (c : ascii) (field rest : bytes) :
  digits a = true -> fits_int (read_digits 0 a) = true ->
  isspace c = false -> isdigit c = false ->
  Ascii.eqb c "-" = false -> Ascii.eqb c "+" = false ->
  find "|" (c :: field) = None ->
  data s = a ++ ":"%char :: (c :: field) ++ "|"%char :: rest ->
  iteration s = Some (Terminated invalid_argument (set_data s rest)).
Proof.
  intros Ha Hva Hsp Hd Hminus Hplus Hbar%find_None Hdata.
  assert (Hcolon : ":"%char ∉ a)
    by (apply digits_without; [done | by apply digits_forallb]).
  assert (Hmsg : "|"%char ∉ a ++ ":"%char :: c :: field).
  { rewrite not_elem_of_app, not_elem_of_cons. repeat split; [|discriminate|done].
    apply digits_without; [done | by apply digits_forallb]. }
  assert (Hs : data s = (a ++ ":"%char :: c :: field) ++ "|"%char :: rest)
    by (by rewrite Hdata, <- app_assoc).
  rewrite (iteration_message s _ rest Hmsg Hs), handle_fields by done.
  by rewrite (stoi_literal _ Ha Hva), (stoi_no_digit c field Hsp Hd Hminus Hplus).
Qed.

(** C2, on the input of the scenario: the two records before the bad token
    are handed on and stored; at [200:abc] [std::stoi] raises
    [std::invalid_argument], which nothing catches: the process ends there,
    [main] writes no line on [std::cerr], and what arrives later, here
    [1:2|], is never read. *)
Theorem non_numeric_field_ends_the_process :
  exists s,
    main_loop (Running initial) [str "30:20|90:5|200:abc|"; str "1:2|"]
    = Terminated invalid_argument s
    /\ line_deque s = [(90, 5); (30, 20)]
    /\ records (trace s) = [(30, 20); (90, 5)]
    /\ complaints (trace s) = []
    /\ arduino_measurements s !! 30 = Some 20
    /\ arduino_measurements s !! 90 = Some 5
    /\ arduino_measurements s !! 1 = None.
Proof.
  eexists. split; [vm_compute; reflexivity|]. vm_compute. repeat split.
Qed.

(** ** The end point of a line and the centre of a blip *)


Lemma angle_radians_90 : angle_radians 90 = half_pi.
Proof. vm_compute. reflexivity. Qed.






Section Libm.
Variables cos sin : float -> float.
Hypothesis cos_0 : cos 0 = 1%float.
Hypothesis sin_0 : sin 0 = 0%float.
Hypothesis cos_90 : cos half_pi = cos_half_pi.
Hypothesis sin_90 : sin half_pi = 1%float.


(** From a start left of the canvas the same code gives another point. *)
Lemma end_point_left_of_the_canvas :
  eval_point cos sin (PolarPt (Pt (-5) (-5)) 90 100) = (-4, -105).
Proof using cos_90 sin_90.
  cbn [eval_point]. unfold polar_end. cbn [fst snd].
  rewrite angle_radians_90, cos_90, sin_90. vm_compute. reflexivity.
Qed.
End Libm.



Example end_point_for_a_negative_length :
  eval_point cos_at_0_and_90 sin_at_0_and_90 (PolarPt circle_center 90 (-200)) = (119, 320).
Proof. vm_compute. reflexivity. Qed.

(** * Further properties *)

(** ** The buffer between two reads *)

Lemma inner_loop_consumed (n : nat) (s s' : session) :
  (length (data s) < n)%nat -> inner_loop s = Running s' ->
  exists consumed,
    data s = consumed ++ data s'
    /\ (consumed = [] \/ last consumed = Some "|"%char).
Proof.
  revert s; induction n as [|n IH]; intros s Hn; [lia|].
  rewrite inner_loop_unfold. destruct (iteration s) as [[s1|e s1]|] eqn:E; [|done|].
  - intros Hrun. pose proof (iteration_shrinks _ _ E) as Hlt.
    destruct (IH s1 ltac:(lia) Hrun) as (consumed & Hdata & Hlast).
    unfold iteration in E. destruct (find "|" (data s)) as [pos|] eqn:F; [|done].
    injection E as E. destruct (find_Some _ _ _ F) as [_ Hsplit].
    pose proof (handle_message_data (set_data s (drop (S pos) (data s)))
                  (take pos (data s))) as Hd.
    rewrite E in Hd. simpl in Hd.
    exists (take pos (data s) ++ "|"%char :: consumed). split.
    + rewrite <- app_assoc. simpl. by rewrite <- Hdata, Hd.
    + right. destruct Hlast as [->|Hlast].
      * by rewrite last_snoc.
      * rewrite last_app, last_cons, Hlast. done.
  - intros [= <-]. exists []. by split; [|left].
Qed.

(** X1. While the process runs, what [data] holds after a read is the end
    of all the bytes received so far: it has no ['|'] in it, and what was
    consumed before it is empty or ends with a ['|']. *)
Theorem buffer_is_what_follows_the_last_delimiter (chunks : list bytes) :
  let r := main_loop (Running initial) chunks in
  is_running r = true ->
  find "|" (data (session_of r)) = None
  /\ exists consumed,
       concat chunks = consumed ++ data (session_of r)
       /\ (consumed = [] \/ last consumed = Some "|"%char).
Proof.
  intros r. subst r.
  destruct (main_loop (Running initial) chunks) as [s'|e s'] eqn:Hr; [|done].
  intros _. simpl.
  assert (Hfeed : feed initial (concat chunks) = Running s').
  { apply observe_Running. by rewrite <- (main_loop_chunking chunks initial eq_refl), Hr. }
  rewrite feed_inner_loop in Hfeed by done.
  split; [by apply inner_loop_exit in Hfeed|].
  by apply (inner_loop_consumed _ _ _ (Nat.lt_succ_diag_r _)) in Hfeed.
Qed.

Lemma buffer_is_what_follows_the_last_delimiter_witness :
  find "|" (str "12:") = None
  /\ exists consumed,
       str "30:20|x|90:5|12:" = consumed ++ str "12:"
       /\ (consumed = [] \/ last consumed = Some "|"%char).
Proof.
  apply (buffer_is_what_follows_the_last_delimiter
           [str "30:2"; str "0|x|9"; str "0:5|12:"]).
  reflexivity.
Defined.

(** X2. Bytes without any ['|'] are only appended to [data], read after
    read: no record, no frame, no line on [std::cerr], and nothing bounds
    the buffer. *)
Theorem bytes_without_delimiter_accumulate (s : session) (chunks : list bytes) :
  find "|" (data s) = None ->
  find "|" (concat chunks) = None ->
  main_loop (Running s) chunks = Running (set_data s (data s ++ concat chunks)).
Proof.
  revert s; induction chunks as [|c chunks IH]; intros s Hs Hc.
  - simpl. by rewrite app_nil_r, set_data_data.
  - apply find_None in Hc. simpl in Hc. apply not_elem_of_app in Hc as [Hc Hrest].
    assert (Hnew : find "|" (data s ++ c) = None).
    { apply find_None, not_elem_of_app. split; [by apply find_None | done]. }
    cbn [main_loop]. rewrite feed_inner_loop by done.
    rewrite iteration_None by done.
    rewrite (IH (set_data s (data s ++ c))); [|done|by apply find_None].
    simpl. by rewrite <- app_assoc.
Qed.

Lemma bytes_without_delimiter_accumulate_witness :
  main_loop (Running initial) [str "30:2"; str "0"; str ":::"]
  = Running (set_data initial (str "30:20:::")).
Proof.
  apply (bytes_without_delimiter_accumulate initial [str "30:2"; str "0"; str ":::"]);
    reflexivity.
Defined.

(** ** The framer as a function of the bytes *)

Lemma split_frames_None (s : bytes) :
  find "|" s = None -> split_frames s = ([], s).
Proof.
  induction s as [|b s IH]; simpl; [done|].
  destruct (Ascii.eqb b "|"); [done|].
  destruct (find "|" s); simpl; [done|]. intros _. by rewrite IH.
Qed.

Lemma split_frames_Some (s : bytes) (pos : nat) :
  find "|" s = Some pos ->
  split_frames s
  = (take pos s :: fst (split_frames (drop (S pos) s)),
     snd (split_frames (drop (S pos) s))).
Proof.
  revert pos; induction s as [|b s IH]; simpl; intros pos; [done|].
  destruct (Ascii.eqb b "|").
  - intros [= <-]. rewrite drop_0. by destruct (split_frames s).
  - destruct (find "|" s) as [n|]; simpl; [|done].
    intros [= <-]. by rewrite (IH n eq_refl).
Qed.

Lemma run_set_data_twice (r : run) (d d' : bytes) :
  run_set_data (run_set_data r d) d' = run_set_data r d'.
Proof. by destruct r. Qed.

Lemma handle_all_set_data (messages : list bytes) (s : session) (d : bytes) :
  handle_all (set_data s d) messages = run_set_data (handle_all s messages) d.
Proof.
  revert s; induction messages as [|m messages IH]; intros s; [done|].
  simpl. rewrite handle_message_set_data.
  destruct (handle_message s m) as [s'|e s']; simpl; [apply IH | done].
Qed.

Lemma observe_run_set_data (r : run) (d : bytes) :
  observe (run_set_data r d)
  = match r with
    | Running s => Running (set_data s d)
    | Terminated e s => Terminated e (set_data s [])
    end.
Proof. by destruct r. Qed.

Lemma inner_loop_split (n : nat) (s : session) :
  (length (data s) < n)%nat ->
  observe (inner_loop s)
  = observe (run_set_data (handle_all s (fst (split_frames (data s))))
                          (snd (split_frames (data s)))).
Proof.
  revert s; induction n as [|n IH]; intros s Hn; [lia|].
  rewrite inner_loop_unfold. unfold iteration.
  destruct (find "|" (data s)) as [pos|] eqn:F.
  - rewrite (split_frames_Some _ _ F). cbn [fst snd handle_all].
    rewrite handle_message_set_data.
    pose proof (find_lt _ _ _ F) as Hlt.
    destruct (handle_message s (take pos (data s))) as [s1|e s1] eqn:H; simpl.
    + rewrite (IH (set_data s1 (drop (S pos) (data s))))
        by (simpl; rewrite length_drop; lia).
      simpl. by rewrite handle_all_set_data, run_set_data_twice.
    + done.
  - rewrite (split_frames_None _ F). simpl. by rewrite set_data_data.
Qed.

(** X3. The read loop is a function of the bytes received, not of how they
    were cut: it handles, in order and up to the first exception, exactly
    the messages that end with a ['|'] in the whole stream, and keeps what
    follows the last ['|']. *)
Theorem read_loop_handles_the_delimited_messages (chunks : list bytes) :
  observe (main_loop (Running initial) chunks)
  = observe (run_set_data
               (handle_all initial (fst (split_frames (concat chunks))))
               (snd (split_frames (concat chunks)))).
Proof.
  rewrite (main_loop_chunking chunks initial eq_refl).
  rewrite feed_inner_loop by done.
  change (data initial ++ concat chunks) with (concat chunks).
  rewrite (inner_loop_split _ _ (Nat.lt_succ_diag_r _)).
  change (data (set_data initial (concat chunks))) with (concat chunks).
  by rewrite handle_all_set_data, run_set_data_twice.
Qed.

Example messages_of_a_stream :
  split_frames (str "30:20|x||90:5|12:") = ([str "30:20"; str "x"; []; str "90:5"], str "12:").
Proof. reflexivity. Qed.

(** ** The trail and the table as functions of the records *)

Lemma rev_records_snoc (t : list event) (degree distanceCM : Z) :
  rev (records (t ++ [UpdateRadar degree distanceCM])) = (degree, distanceCM) :: rev (records t).
Proof. by rewrite records_app, rev_app_distr. Qed.

(** X4. In every state the read loop reaches, running or ended by an
    exception, the trail is the 40 latest records handed on, the latest
    first. *)
Theorem trail_is_the_latest_records (chunks : list bytes) :
  let s := session_of (main_loop (Running initial) chunks) in
  line_deque s = take 40 (rev (records (trace s))).
Proof.
  apply (main_loop_keeps (fun s => line_deque s = take 40 (rev (records (trace s))))).
  - done.
  - intros s degree distanceCM H.
    rewrite accept_line_deque, accept_records, H, push_trail_take.
    by rewrite rev_app_distr.
  - intros s text H. simpl. rewrite records_app. simpl. by rewrite app_nil_r.
  - done.
Qed.

Lemma first_stored_snoc (angle degree distanceCM : Z) (rs : list (Z * Z)) :
  first_stored angle (rs ++ [(degree, distanceCM)])
  = match first_stored angle rs with
    | Some v => Some v
    | None =>
        if (degree =? angle) && (distanceCM <? 50) && (1 <? distanceCM)
        then Some distanceCM else None
    end.
Proof.
  induction rs as [|[a d] rs IH]; simpl; [done|].
  by destruct ((a =? angle) && (d <? 50) && (1 <? d)).
Qed.

(** X5. In every state the read loop reaches, the table maps an angle to
    the distance of the first record handed on for that angle with
    [1 < distance < 50], and has no entry for an angle without such a
    record. *)
Theorem table_is_the_first_valid_record (chunks : list bytes) (angle : Z) :
  let s := session_of (main_loop (Running initial) chunks) in
  arduino_measurements s !! angle = first_stored angle (records (trace s)).
Proof.
  revert angle. cbv zeta.
  apply (main_loop_keeps
           (fun s => forall angle,
              arduino_measurements s !! angle = first_stored angle (records (trace s)))).
  - done.
  - intros s degree distanceCM H angle.
    rewrite accept_arduino_measurements, accept_records, first_stored_snoc, <- H.
    unfold store.
    destruct (Z.eqb_spec degree angle) as [->|Hne]; simpl.
    + destruct ((distanceCM <? 50) && (1 <? distanceCM)); simpl.
      * case_bool_decide as Hfree; simpl.
        -- by rewrite Hfree, lookup_insert_eq.
        -- by destruct (arduino_measurements s !! angle).
      * by destruct (arduino_measurements s !! angle).
    + destruct ((distanceCM <? 50) && (1 <? distanceCM)
                && bool_decide (arduino_measurements s !! degree = None)).
      * rewrite lookup_insert_ne by done. by destruct (arduino_measurements s !! angle).
      * by destruct (arduino_measurements s !! angle).
  - intros s text H angle. simpl. rewrite records_app. simpl. by rewrite app_nil_r.
  - intros angle. apply (lookup_empty (M:=gmap Z)).
Qed.

Example table_of_a_stream :
  first_stored 30 [(30, 1); (90, 7); (30, 50); (30, 45); (30, 20)] = Some 45.
Proof. reflexivity. Qed.

(** ** What is shown *)

Lemma shown_app (t u : list event) : shown (t ++ u) = shown t ++ shown u.
Proof.
  induction t as [|[] t IH]; simpl; [done| | done | done]. by rewrite IH.
Qed.

Lemma accept_shown (s : session) (degree distanceCM : Z) :
  shown (trace (accept s degree distanceCM))
  = shown (trace s) ++ [radar_template; radar (accept s degree distanceCM)].
Proof.
  unfold accept, updateRadar, drawRadar. cbn [trace radar line_deque].
  rewrite !shown_app. simpl. by rewrite app_nil_r, <- app_assoc.
Qed.

Lemma accept_radar (s : session) (degree distanceCM : Z) :
  radar (accept s degree distanceCM)
  = radar_template
    ++ draw_trail [] 0 (line_deque (accept s degree distanceCM))
    ++ draw_info [] degree distanceCM.
Proof.
  rewrite accept_line_deque. unfold accept. cbn [radar].
  rewrite updateRadar_radar. cbn [line_deque].
  by rewrite (draw_trail_entries _ [] 0).
Qed.

(** X6. In every state the read loop reaches the frame in [radar] is the
    one last shown, and it is built from nothing but the template, the
    trail as it is now and the latest record: the template alone before the
    first record, and after it the template, then the trail from the newest
    entry to the oldest, then the text for the latest record. Nothing of an
    earlier frame is carried over. *)
Theorem frame_is_rebuilt_from_the_trail (chunks : list bytes) :
  let s := session_of (main_loop (Running initial) chunks) in
  last (shown (trace s)) = Some (radar s)
  /\ radar s
     = match last (records (trace s)) with
       | None => radar_template
       | Some (degree, distanceCM) =>
           radar_template ++ draw_trail [] 0 (line_deque s)
                          ++ draw_info [] degree distanceCM
       end.
Proof.
  apply (main_loop_keeps
           (fun s =>
              last (shown (trace s)) = Some (radar s)
              /\ radar s
                 = match last (records (trace s)) with
                   | None => radar_template
                   | Some (degree, distanceCM) =>
                       radar_template ++ draw_trail [] 0 (line_deque s)
                                      ++ draw_info [] degree distanceCM
                   end)).
  - done.
  - intros s degree distanceCM _. split.
    + by rewrite accept_shown, last_app.
    + rewrite accept_records, last_snoc. apply accept_radar.
  - intros s text [Hshown Hradar]. simpl.
    rewrite shown_app, records_app. simpl. by rewrite !app_nil_r.
  - done.
Qed.

(** X7. Every record handed on makes the program show two frames, the bare
    template and then the composed frame; with the template shown before
    the loop, the frames shown are the template followed by one such pair
    per record, and nothing else is ever shown. *)
Theorem two_frames_per_record (chunks : list bytes) :
  let s := session_of (main_loop (Running initial) chunks) in
  exists composed : list Mat,
    shown (trace s)
    = radar_template :: concat (map (fun frame => [radar_template; frame]) composed)
    /\ length composed = length (records (trace s)).
Proof.
  apply (main_loop_keeps
           (fun s =>
              exists composed : list Mat,
                shown (trace s)
                = radar_template
                  :: concat (map (fun frame => [radar_template; frame]) composed)
                /\ length composed = length (records (trace s)))).
  - done.
  - intros s degree distanceCM (composed & Hshown & Hlen).
    exists (composed ++ [radar (accept s degree distanceCM)]). split.
    + by rewrite accept_shown, Hshown, map_app, concat_app.
    + rewrite accept_records, !length_app, Hlen. done.
  - intros s text (composed & Hshown & Hlen). exists composed. simpl.
    rewrite shown_app, records_app. simpl. by rewrite !app_nil_r.
  - by exists [].
Qed.

(** ** The colour channels of what is shown *)

Lemma red_channel_bounds :
  forallb (fun color_change =>
             Qle_bool (-25) (Q_of_double (255 - double_of_int color_change * 1.4)%float)
             && Qle_bool (Q_of_double (255 - double_of_int color_change * 1.4)%float) 248)
          (seqZ 5 196) = true.
Proof. vm_compute. reflexivity. Qed.

Lemma trail_line_bounded (color_change : Z) (entry : Z * Z) :
  0 <= color_change <= 195 ->
  forallb channels_bounded (trail_line color_change entry) = true.
Proof.
  intros H. destruct entry as [angle distance]. rewrite trail_line_shape.
  assert (Hline : channels_bounded
                    (line circle_center (PolarPt circle_center angle 100)
                          (mkScalar 0 (inject_Z (200 - (color_change + 5))) 0)) = true).
  { simpl. apply andb_true_iff. split; apply Qle_bool_iff;
      unfold Qle, inject_Z; simpl; lia. }
  case_decide; cbn [forallb]; rewrite Hline; [|done].
  cbn [channels_bounded v2 andb]. rewrite andb_true_r.
  apply (proj1 (forallb_forall _ _) red_channel_bounds (color_change + 5)).
  apply list_elem_of_In, elem_of_seqZ. lia.
Qed.

Lemma draw_trail_bounded (trail : list (Z * Z)) (frame : Mat) (color_change : Z) :
  0 <= color_change -> color_change + 5 * Z.of_nat (length trail) <= 200 ->
  forallb channels_bounded frame = true ->
  forallb channels_bounded (draw_trail frame color_change trail) = true.
Proof.
  revert frame color_change; induction trail as [|entry trail IH];
    intros frame color_change H0 Hlen Hframe; [done|].
  cbn [draw_trail]. rewrite draw_trail_line_frame. cbn [length] in Hlen.
  apply IH; [lia | lia |].
  rewrite forallb_app, Hframe. simpl. apply trail_line_bounded. lia.
Qed.

(** X8. In every frame the program shows, whatever bytes arrive, the green
    channel of every line is between 0 and 195 and the red channel of every
    circle, the double the code computes, between -25 and 248: with at most
    40 entries in the trail the unclamped fade never makes a green channel
    negative, and makes a red channel negative by 25 at most. *)
Theorem shown_channels_are_bounded (chunks : list bytes) :
  let s := session_of (main_loop (Running initial) chunks) in
  forallb (forallb channels_bounded) (shown (trace s)) = true.
Proof.
  cbv zeta.
  enough (H : (length (line_deque (session_of (main_loop (Running initial) chunks)))
               <= 40)%nat
              /\ forallb (forallb channels_bounded)
                         (shown (trace (session_of (main_loop (Running initial) chunks))))
                 = true) by apply H.
  apply (main_loop_keeps
           (fun s => (length (line_deque s) <= 40)%nat
                     /\ forallb (forallb channels_bounded) (shown (trace s)) = true)).
  - done.
  - intros s degree distanceCM [Hlen Hshown].
    assert (Hnew : (length (line_deque (accept s degree distanceCM)) <= 40)%nat)
      by (rewrite accept_line_deque; by apply push_trail_length).
    split; [done|].
    rewrite accept_shown, forallb_app, Hshown. cbn [forallb andb].
    rewrite andb_true_r.
    change (forallb channels_bounded radar_template) with true. cbn [andb].
    rewrite accept_radar, !forallb_app.
    change (forallb channels_bounded radar_template) with true. cbn [andb].
    apply andb_true_iff. split.
    + apply draw_trail_bounded; [lia | lia | done].
    + unfold draw_info. by destruct (distanceCM <? 50).
  - intros s text [Hlen Hshown]. split; [done|]. simpl.
    rewrite shown_app. simpl. by rewrite app_nil_r.
  - split; [simpl; lia | done].
Qed.

(** ** The records are [int]s *)

Lemma stoi_in_int (s : bytes) (v : Z) : stoi s = Ok v -> INT_MIN <= v <= INT_MAX.
Proof.
  unfold stoi.
  destruct (match skip_space s with
            | [] => (false, skip_space s)
            | c :: s' =>
                if Ascii.eqb c "-" then (true, s')
                else if Ascii.eqb c "+" then (false, s') else (false, skip_space s)
            end) as [negative t].
  destruct t as [|c t]; [done|]. destruct (isdigit c); [|done].
  cbv zeta.
  destruct ((INT_MIN <=? (if negative then - read_digits 0 (c :: t)
                          else read_digits 0 (c :: t)))
            && ((if negative then - read_digits 0 (c :: t)
                 else read_digits 0 (c :: t)) <=? INT_MAX)) eqn:E; [|done].
  intros [= <-]. apply andb_true_iff in E as [E1%Z.leb_le E2%Z.leb_le].
  exact (conj E1 E2).
Qed.

Section RecordsInvariant.
Variable P : session -> Prop.
Hypothesis P_set_data : forall s d, P s -> P (set_data s d).
Hypothesis P_accept : forall s degree distanceCM,
  in_int (degree, distanceCM) -> P s -> P (accept s degree distanceCM).
Hypothesis P_cerr : forall s message,
  find ":" message = None -> P s ->
  P (mkSession (data s) (line_deque s) (arduino_measurements s) (radar s)
               (trace s ++ [Cerr (invalid_format ++ message)])).

Lemma handle_message_keeps_parsed (s : session) (message : bytes) :
  P s -> P (session_of (handle_message s message)).
Proof using P_accept P_cerr.
  intros H. unfold handle_message.
  destruct (find ":" message) as [pos|] eqn:F; [|by apply P_cerr].
  destruct (stoi (take pos message)) as [degree|] eqn:Ha; [|done].
  destruct (stoi (drop (S pos) message)) as [distanceCM|] eqn:Hd; [|done].
  apply P_accept; [|done]. split; simpl; by eapply stoi_in_int.
Qed.

Lemma drain_keeps_parsed (fuel : nat) (s : session) : P s -> P (session_of (drain fuel s)).
Proof using P_set_data P_accept P_cerr.
  revert s; induction fuel as [|fuel IH]; intros s H; [done|].
  rewrite drain_S. destruct (iteration s) as [r|] eqn:E; [|done].
  unfold iteration in E. destruct (find "|" (data s)) as [pos|]; [|done].
  injection E as <-.
  pose proof (handle_message_keeps_parsed (set_data s (drop (S pos) (data s)))
                (take pos (data s)) (P_set_data _ _ H)) as Hk.
  destruct (handle_message _ _) as [s'|e s']; [by apply IH | done].
Qed.

Lemma main_loop_keeps_parsed (chunks : list bytes) (r : run) :
  P (session_of r) -> P (session_of (main_loop r chunks)).
Proof using P_set_data P_accept P_cerr.
  revert r; induction chunks as [|c chunks IH]; intros r H; [done|].
  destruct r as [s|e s]; [|done]. simpl. apply IH.
  destruct c as [|b c]; [done|]. apply drain_keeps_parsed. by apply P_set_data.
Qed.
End RecordsInvariant.

Lemma push_trail_Forall (Q : Z * Z -> Prop) (m : Z * Z) (dq : list (Z * Z)) :
  Q m -> Forall Q dq -> Forall Q (push_trail m dq).
Proof.
  intros Hm Hdq. rewrite push_trail_cons. apply Forall_cons. split; [done|].
  case_decide; [done|]. rewrite removelast_firstn_len. by apply Forall_take.
Qed.

(** X9. Every record the framer hands on, and so every entry of the trail,
    has both components within the range of [int]: fields that do not fit
    never become a record. *)
Theorem records_are_ints (chunks : list bytes) :
  let s := session_of (main_loop (Running initial) chunks) in
  Forall in_int (records (trace s)) /\ Forall in_int (line_deque s).
Proof.
  apply (main_loop_keeps_parsed
           (fun s => Forall in_int (records (trace s)) /\ Forall in_int (line_deque s))).
  - done.
  - intros s degree distanceCM Hint [Hrecords Htrail]. split.
    + rewrite accept_records. apply Forall_app. split; [done|]. by apply Forall_singleton.
    + rewrite accept_line_deque. by apply push_trail_Forall.
  - intros s message _ [Hrecords Htrail]. split; [|done]. simpl.
    rewrite records_app. simpl. by rewrite app_nil_r.
  - split; simpl; constructor.
Qed.

(** ** [std::to_string] read back by [std::stoi] *)

Lemma uint_digits (u : Decimal.uint) :
  forallb isdigit (list_ascii_of_string (NilEmpty.string_of_uint u)) = true.
Proof. induction u; simpl; done. Qed.

Lemma read_digits_digit (c : ascii) (acc : Z) (l : bytes) :
  isdigit c = true -> read_digits acc (c :: l) = read_digits (10 * acc + digit_value c) l.
Proof. intros H. simpl. by rewrite H. Qed.

Ltac digit_step IH :=
  cbn [list_ascii_of_string NilEmpty.string_of_uint Pos.of_uint_acc];
  rewrite read_digits_digit by reflexivity;
  rewrite <- IH; f_equal;
  match goal with
  | |- context [digit_value ?c] =>
      let v := eval vm_compute in (digit_value c) in change (digit_value c) with v
  end; lia.

Lemma read_digits_uint_acc (u : Decimal.uint) (acc : positive) :
  read_digits (Z.pos acc) (list_ascii_of_string (NilEmpty.string_of_uint u))
  = Z.pos (Pos.of_uint_acc u acc).
Proof.
  revert acc; induction u; intros acc; [done|..]; digit_step IHu.
Qed.

Lemma read_digits_uint (u : Decimal.uint) :
  read_digits 0 (list_ascii_of_string (NilEmpty.string_of_uint u))
  = Z.of_N (Pos.of_uint u).
Proof.
  induction u; [done| exact IHu |..];
    cbn [list_ascii_of_string NilEmpty.string_of_uint Pos.of_uint];
    rewrite read_digits_digit by reflexivity; apply read_digits_uint_acc.
Qed.

Lemma to_string_pos (p : positive) :
  digits (list_ascii_of_string (NilEmpty.string_of_uint (Pos.to_uint p))) = true
  /\ read_digits 0 (list_ascii_of_string (NilEmpty.string_of_uint (Pos.to_uint p)))
     = Z.pos p
  /\ NilZero.string_of_uint (Pos.to_uint p) = NilEmpty.string_of_uint (Pos.to_uint p).
Proof.
  pose proof (Unsigned.to_uint_nonnil p) as Hnil.
  split; [|split].
  - pose proof (uint_digits (Pos.to_uint p)) as H.
    destruct (Pos.to_uint p); [done|..]; exact H.
  - by rewrite read_digits_uint, Unsigned.of_to.
  - by destruct (Pos.to_uint p).
Qed.

(** X10. The text [std::to_string] gives for an [int] is read back by
    [std::stoi] as the same [int], also when something that does not start
    with a digit follows it, as in the text [-50 cm] of the info bar. *)
Theorem stoi_reads_back_to_string (z : Z) (tail : bytes) :
  fits_int z = true -> stops tail = true -> stoi (to_string z ++ tail) = Ok z.
Proof.
  intros Hz Htail. destruct z as [|p|p].
  - exact (stoi_int_text false (str "0") tail eq_refl Htail eq_refl).
  - destruct (to_string_pos p) as (Hd & Hv & Hs).
    unfold to_string. simpl. rewrite Hs.
    pose proof (stoi_int_text false _ tail Hd Htail) as H.
    unfold int_value in H. rewrite Hv in H. by apply H.
  - destruct (to_string_pos p) as (Hd & Hv & Hs).
    unfold to_string. simpl. rewrite Hs.
    pose proof (stoi_int_text true _ tail Hd Htail) as H.
    unfold int_value in H. rewrite Hv in H. by apply H.
Qed.

Lemma stoi_reads_back_to_string_witness :
  stoi (to_string (-50) ++ str " cm") = Ok (-50).
Proof.
  apply (stoi_reads_back_to_string (-50) (str " cm")); reflexivity.
Defined.

(** ** The band of the table and the band of the blips *)

(** X11. The test of the table ([1 < distance < 50]) and the test of the
    blip ([2 < distance < 50]) differ at one distance only: for an angle
    that is not yet in the table, a record is stored without a circle being
    drawn for it exactly when its distance is 2, and every record that gets
    a circle is stored. *)
Theorem stored_without_a_blip_only_at_two
    (table : gmap Z Z) (color_change angle distance : Z) :
  table !! angle = None ->
  ((store table angle distance !! angle = Some distance
    /\ circle_centers (trail_line color_change (angle, distance)) = [])
   <-> distance = 2)
  /\ (circle_centers (trail_line color_change (angle, distance)) <> [] ->
      store table angle distance !! angle = Some distance).
Proof.
  intros Hfree. rewrite trail_line_shape. unfold store. rewrite Hfree.
  rewrite bool_decide_eq_true_2 by done. rewrite andb_true_r.
  destruct (Z.ltb_spec distance 50), (Z.ltb_spec 1 distance); simpl;
    case_decide; simpl; rewrite ?lookup_insert_eq, ?Hfree;
    (split; [split; [intros [? ?]; try done; lia | intros ->; try lia; done]
            | intros ?; try done; lia]).
Qed.

Lemma stored_without_a_blip_only_at_two_witness :
  ((store ∅ 90 2 !! 90 = Some 2 /\ circle_centers (trail_line 0 (90, 2)) = [])
   <-> 2 = 2)
  /\ (circle_centers (trail_line 0 (90, 2)) <> [] -> store ∅ 90 2 !! 90 = Some 2).
Proof.
  apply (stored_without_a_blip_only_at_two ∅ 0 90 2). reflexivity.
Defined.

(** ** White space before a field *)

Lemma skip_space_app (ws s : bytes) :
  forallb isspace ws = true -> skip_space (ws ++ s) = skip_space s.
Proof.
  induction ws as [|c ws IH]; simpl; [done|].
  intros [Hc Hws]%andb_true_iff. rewrite Hc. by apply IH.
Qed.

Lemma stoi_skips_space (ws s : bytes) :
  forallb isspace ws = true -> stoi (ws ++ s) = stoi s.
Proof. intros H. unfold stoi. by rewrite skip_space_app. Qed.

Lemma isspace_not_colon (c : ascii) : isspace c = true -> c <> ":"%char.
Proof. intros H ->. discriminate H. Qed.

Lemma space_without_colon (ws : bytes) : forallb isspace ws = true -> ":"%char ∉ ws.
Proof.
  induction ws as [|c ws IH]; simpl; [intros _; apply not_elem_of_nil|].
  intros [Hc Hws]%andb_true_iff. apply not_elem_of_cons.
  split; [intros E; by apply (isspace_not_colon c Hc) | by apply IH].
Qed.

(** X12. White space in front of a field (a blank, a tab, the line end a
    sender puts after each token) changes nothing: the message is handled
    as the message without it. *)
Theorem space_before_a_field_is_skipped
    (s : session) (space_a a space_d d : bytes) :
  forallb isspace space_a = true ->
  forallb isspace space_d = true ->
  find ":" a = None ->
  handle_message s ((space_a ++ a) ++ ":"%char :: space_d ++ d)
  = handle_message s (a ++ ":"%char :: d).
Proof.
  intros Ha Hd Hcolon%find_None.
  rewrite !handle_fields; [|done|].
  - by rewrite !stoi_skips_space.
  - apply not_elem_of_app. split; [by apply space_without_colon | done].
Qed.

Lemma space_before_a_field_is_skipped_witness :
  handle_message initial ((["013"%char; "010"%char] ++ str "30") ++ ":"%char
                          :: [" "%char] ++ str "20")
  = handle_message initial (str "30" ++ ":"%char :: str "20").
Proof.
  apply (space_before_a_field_is_skipped initial
           ["013"%char; "010"%char] (str "30") [" "%char] (str "20"));
    reflexivity.
Defined.

Example tokens_on_lines :
  let r := main_loop (Running initial)
             [str "30:20|" ++ ["013"%char; "010"%char] ++ str "90: 5|"
              ++ ["013"%char; "010"%char]] in
  is_running r = true
  /\ records (trace (session_of r)) = [(30, 20); (90, 5)]
  /\ complaints (trace (session_of r)) = []
  /\ data (session_of r) = ["013"%char; "010"%char].
Proof. vm_compute. repeat split. Qed.

(** ** What is written on [std::cerr] and in the info bar *)



(** X14. After a record is handled, the last thing drawn on the frame is
    the distance text of the info bar: [Nothing] exactly when the distance
    is 50 or more, and otherwise the distance followed by [ cm], also for a
    distance that is zero or negative. *)
Theorem info_bar_shows_the_latest_distance (s : session) (degree distanceCM : Z) :
  last (radar (accept s degree distanceCM))
  = Some (putText (if decide (50 <= distanceCM)
                   then str "Nothing"
                   else to_string distanceCM ++ str " cm")
                  (Pt 165 135) 0.8 green).
Proof.
  rewrite accept_radar, !last_app. unfold draw_info.
  destruct (Z.ltb_spec distanceCM 50); case_decide; try lia; done.
Qed.

Example info_bar_for_a_negative_distance :
  last (radar (accept initial 200 (-5)))
  = Some (putText (str "-5 cm") (Pt 165 135) 0.8 green).
Proof. reflexivity. Qed.

(** ** A field [std::stoi] rejects *)

(** X15. A message with a [':'] one of whose fields makes [std::stoi]
    raise (an empty or blank field, letters, too many digits) ends the
    process on the exception of the first such field, the angle before the
    distance. Trail, table, frame and output stay as they were before the
    message, the bytes behind its ['|'] are left unread, and later reads
    change nothing. *)
Theorem failing_field_ends_the_process
    (s : session) (a d rest : bytes) (e : exn) (later : list bytes) :
  find ":" a = None -> find "|" a = None -> find "|" d = None ->
  data s = a ++ ":"%char :: d ++ "|"%char :: rest ->
  stoi a = Throw e \/ ((exists degree, stoi a = Ok degree) /\ stoi d = Throw e) ->
  iteration s = Some (Terminated e (set_data s rest))
  /\ inner_loop s = Terminated e (set_data s rest)
  /\ main_loop (inner_loop s) later = Terminated e (set_data s rest).
Proof.
  intros Hcolon%find_None Hbar_a%find_None Hbar_d%find_None Hdata Hfail.
  assert (Hmsg : "|"%char ∉ a ++ ":"%char :: d).
  { rewrite not_elem_of_app, not_elem_of_cons. repeat split; done || discriminate. }
  assert (Hs : data s = (a ++ ":"%char :: d) ++ "|"%char :: rest)
    by (by rewrite Hdata, <- app_assoc).
  assert (Hit : iteration s = Some (Terminated e (set_data s rest))).
  { rewrite (iteration_message s _ rest Hmsg Hs), handle_fields by done.
    destruct Hfail as [->|[[degree ->] ->]]; done. }
  assert (Hloop : inner_loop s = Terminated e (set_data s rest))
    by (by rewrite inner_loop_unfold, Hit).
  split; [done|]. split; [done|]. by rewrite Hloop, main_loop_Terminated.
Qed.

Lemma failing_field_ends_the_process_witness :
  iteration (set_data initial (str "30:|90:5|"))
  = Some (Terminated invalid_argument (set_data initial (str "90:5|")))
  /\ inner_loop (set_data initial (str "30:|90:5|"))
     = Terminated invalid_argument (set_data initial (str "90:5|"))
  /\ main_loop (inner_loop (set_data initial (str "30:|90:5|"))) [str "1:2|"]
     = Terminated invalid_argument (set_data initial (str "90:5|")).
Proof.
  apply (failing_field_ends_the_process
           (set_data initial (str "30:|90:5|")) (str "30") [] (str "90:5|")
           invalid_argument [str "1:2|"]); try reflexivity.
  right. split; [by exists 30 | reflexivity].
Defined.
